(** * Signal engine of the daily stock scan ([main.py], [compute_signals])

    A shallow embedding of the signal computation and ranking engine and
    the properties its specification states about it.

    Numbers.  The engine computes on IEEE doubles.  The embedding keeps the
    special values of a double ([NaN], the two infinities) and replaces the
    finite doubles by exact rationals: every operation below returns what
    the float operation returns up to its rounding error, and the same
    special value in the same cases.  Zero is unsigned.

    Library calls ([dropna], [rolling(w).mean()], [iloc], [sort_values],
    [sorted], [set], [round]) are modelled after their documented behaviour
    for the arguments [compute_signals] passes. *)

From Stdlib Require Import QArith Qround Qabs Lqa.
From Stdlib Require Import Sorting.Sorted Sorting.Permutation.
From Stdlib Require Import Strings.String Strings.Ascii.
From Stdlib Require Import Structures.OrderedTypeEx.
From stdpp Require Import base option list strings.

(** ** Exceptions and the error monad *)

(** The Python exceptions that the body of [compute_signals] can raise. *)
Inductive exn : Type :=
| KeyError        (* data[...] on a missing column label *)
| IndexError      (* iloc[-k] beyond the length of a series *)
| TypeError       (* float(...) of a row that holds several values *)
| ValueError      (* truth value of a row that holds several values *)
| RuntimeError.   (* raised by compute_signals itself: no usable output *)

Inductive result (A : Type) : Type :=
| Ok (a : A)
| Raise (e : exn).
Arguments Ok {A} a.
Arguments Raise {A} e.

#[global] Instance result_ret : MRet result := fun A a => Ok a.
#[global] Instance result_bind : MBind result := fun A B k m =>
  match m with
  | Ok a => k a
  | Raise e => Raise e
  end.

(** ** Doubles *)

Inductive float64 : Type :=
| Fin (q : Q)
| PInf
| NInf
| NaN.

Definition isnan (x : float64) : bool :=
  match x with NaN => true | _ => false end.

(** [x < y] and [x > y] on doubles: false as soon as one side is NaN. *)
Definition flt (x y : float64) : bool :=
  match x, y with
  | NaN, _ | _, NaN => false
  | Fin a, Fin b => negb (Qle_bool b a)
  | NInf, (Fin _ | PInf) => true
  | Fin _, PInf => true
  | _, _ => false
  end.

Definition fgt (x y : float64) : bool := flt y x.

Definition Qsign (q : Q) : comparison := (q ?= 0)%Q.

Definition fsub (x y : float64) : float64 :=
  match x, y with
  | NaN, _ | _, NaN => NaN
  | Fin a, Fin b => Fin (a - b)
  | PInf, PInf | NInf, NInf => NaN
  | PInf, _ | _, NInf => PInf
  | NInf, _ | _, PInf => NInf
  end.

(** An infinity with the sign of [s]; NaN for the sign of zero. *)
Definition inf_of_sign (s : comparison) : float64 :=
  match s with
  | Gt => PInf
  | Lt => NInf
  | Eq => NaN
  end.

Definition fmul (x y : float64) : float64 :=
  match x, y with
  | NaN, _ | _, NaN => NaN
  | Fin a, Fin b => Fin (a * b)
  | Fin a, PInf | PInf, Fin a => inf_of_sign (Qsign a)
  | Fin a, NInf | NInf, Fin a => inf_of_sign (CompOpp (Qsign a))
  | PInf, PInf | NInf, NInf => PInf
  | PInf, NInf | NInf, PInf => NInf
  end.

Definition fdiv (x y : float64) : float64 :=
  match x, y with
  | NaN, _ | _, NaN => NaN
  | Fin a, Fin b =>
      if Qeq_bool b 0 then inf_of_sign (Qsign a) else Fin (a / b)
  | Fin _, (PInf | NInf) => Fin 0
  | PInf, Fin b => if Qle_bool 0 b then PInf else NInf
  | NInf, Fin b => if Qle_bool 0 b then NInf else PInf
  | (PInf | NInf), (PInf | NInf) => NaN
  end.

(** Python's [round(x, n)] on a float: to the nearest multiple of [10^-n],
    ties to the even one; NaN and the infinities round to themselves. *)
Definition round_half_even (q : Q) : Z :=
  let f := Qfloor q in
  match (q - inject_Z f ?= 1 # 2)%Q with
  | Lt => f
  | Gt => (f + 1)%Z
  | Eq => if Z.even f then f else (f + 1)%Z
  end.

Definition Qround_nd (n : nat) (q : Q) : Q :=
  let s := (10 ^ Z.of_nat n)%Z in
  (inject_Z (round_half_even (q * inject_Z s)) / inject_Z s)%Q.

Definition py_round (x : float64) (n : nat) : float64 :=
  match x with
  | Fin q => Fin (Qround_nd n q)
  | _ => x
  end.

(** ** Frames, columns and series *)

(** An index label is the ISO date of the trading day. *)
Definition label : Type := string.

(** A raw column of the downloaded frame, aligned with the frame's index;
    [None] is a provider gap (NaN). *)
Definition Column : Type := list (option Q).

(** A series after [dropna]: the surviving index labels and their values. *)
Definition Series : Type := list (label * Q).

(** [data.columns] is either a [MultiIndex] of (ticker, field) labels or a
    flat index of field labels.  Labels may repeat. *)
Inductive Columns : Type :=
| MultiIndex (cols : list ((string * string) * Column))
| Index (cols : list (string * Column)).

Record DataFrame : Type := {
  index : list label;
  columns : Columns
}.

(** What [data[key]] returns: a Series for a label that occurs once, a
    sub-frame for a label that occurs several times. *)
Inductive Selection : Type :=
| OneColumn (c : Column)
| SubFrame (cs : list Column).

Definition getitem {K} `{EqDecision K}
    (cols : list (K * Column)) (key : K) : result Selection :=
  match (filter (λ c, c.1 = key) cols).*2 with
  | [] => Raise KeyError
  | [c] => Ok (OneColumn c)
  | cs => Ok (SubFrame cs)
  end.

(** The object bound to [close] and [vol]: a gap-free Series, or a gap-free
    frame of two or more columns (one list of values per surviving row). *)
Inductive Selected : Type :=
| SeriesOf (s : Series)
| FrameOf (rows : list (label * list Q)).

Fixpoint frame_rows (idx : list label) (cs : list Column)
    : list (label * list (option Q)) :=
  match idx with
  | [] => []
  | d :: idx' => (d, (λ c, mjoin (head c)) <$> cs) :: frame_rows idx' (tail <$> cs)
  end.

Definition dropna_series (idx : list label) (c : Column) : Series :=
  omap (λ p : label * option Q, v ← p.2; Some (p.1, v)) (zip idx c).

Definition dropna (idx : list label) (sel : Selection) : Selected :=
  match sel with
  | OneColumn c => SeriesOf (dropna_series idx c)
  | SubFrame cs =>
      FrameOf (omap (λ r : label * list (option Q),
                       vs ← mapM id r.2; Some (r.1, vs))
                    (frame_rows idx cs))
  end.

Definition len (x : Selected) : nat :=
  match x with
  | SeriesOf s => length s
  | FrameOf rows => length rows
  end.

(** [l.iloc[-k]] for [k] = 1, 2. *)
Definition iloc_neg {A} (l : list A) (k : nat) : result A :=
  match (if (k <=? length l)%nat then l !! (length l - k)%nat else None) with
  | Some x => Ok x
  | None => Raise IndexError
  end.

(** ** Rolling mean

    [Series.rolling(w).mean()] slides a window over the values, keeping the
    number of observations in the window and their running sum: an
    observation entering the window is added, the one leaving it is
    subtracted.  The mean at a position is defined once the window holds
    [min_periods] observations, which defaults to [w]. *)

Definition calc_mean (minp nobs : nat) (sum_x : Q) : float64 :=
  if (minp <=? nobs)%nat && (0 <? nobs)%nat
  then Fin (sum_x / inject_Z (Z.of_nat nobs))
  else NaN.

Definition slide (w : nat) (win : list Q) (sum_x : Q) (x : Q) : list Q * Q :=
  if (length win <? w)%nat then (win ++ [x], (sum_x + x)%Q)
  else match win with
       | old :: rest => (rest ++ [x], (sum_x - old + x)%Q)
       | [] => ([], sum_x)
       end.

Fixpoint roll_mean (w : nat) (win : list Q) (sum_x : Q) (xs : list Q)
    : list float64 :=
  match xs with
  | [] => []
  | x :: xs' =>
      let '(win', sum') := slide w win sum_x x in
      calc_mean w (length win') sum' :: roll_mean w win' sum' xs'
  end.

Definition rolling_mean (w : nat) (xs : list Q) : list float64 :=
  roll_mean w [] 0%Q xs.

(** ** Signals of one ticker *)

(** One output record; [None] in a percentage field is Python's [None]. *)
Record Row : Type := {
  ticker : string;
  date : string;
  price : float64;
  d_change_pct : option float64;
  golden_cross_5_20 : bool;
  vol_spike_vs_20d : bool;
  above_ma60_pct : option float64
}.

(** [(x / y - 1) * 100] on doubles. *)
Definition pct_over (x y : float64) : float64 :=
  fmul (fsub (fdiv x y) (Fin 1)) (Fin 100).

(** [float((close.iloc[-1] / close.iloc[-2] - 1) * 100) if len(close) > 1
    else np.nan] *)
Definition day_change_of (close : list Q) : result float64 :=
  if (1 <? length close)%nat then
    x ← iloc_neg close 1;
    y ← iloc_neg close 2;
    mret (pct_over (Fin x) (Fin y))
  else mret NaN.

(** [int(ma5.iloc[-2] < ma20.iloc[-2] and ma5.iloc[-1] > ma20.iloc[-1])];
    [and] evaluates its right operand only when the left one holds. *)
Definition golden_cross_of (ma5 ma20 : list float64) : result bool :=
  a ← iloc_neg ma5 2;
  b ← iloc_neg ma20 2;
  if flt a b then
    c ← iloc_neg ma5 1;
    d ← iloc_neg ma20 1;
    mret (fgt c d)
  else mret false.

(** [int(vol.iloc[-1] > 1.5 * vol20.iloc[-1]) if not
    np.isnan(vol20.iloc[-1]) else 0].  On a sub-frame, [vol20.iloc[-1]] is
    a row of several values, whose [isnan] has no truth value. *)
Definition vol_spike_of (vol : Selected) : result bool :=
  match vol with
  | SeriesOf v =>
      let vol20 := rolling_mean 20 v.*2 in
      m ← iloc_neg vol20 1;
      if negb (isnan m) then
        x ← iloc_neg v.*2 1;
        mret (fgt (Fin x) (fmul (Fin 1.5) m))
      else mret false
  | FrameOf rows =>
      _ ← iloc_neg rows 1;
      Raise ValueError
  end.

(** [float((price / ma60.iloc[-1] - 1) * 100) if not
    np.isnan(ma60.iloc[-1]) else np.nan] *)
Definition above_ma60_of (price : float64) (ma60 : list float64)
    : result float64 :=
  m ← iloc_neg ma60 1;
  if negb (isnan m) then mret (pct_over price m) else mret NaN.

(** [round(x, n) if not np.isnan(x) else None] *)
Definition round_or_none (x : float64) (n : nat) : option float64 :=
  if negb (isnan x) then Some (py_round x n) else None.

(** The body of the [try] block once [close] and [vol] are bound:
    [Ok None] is the [continue] of the minimum-history gate. *)
Definition signals (t : string) (close vol : Selected) : result (option Row) :=
  if (len close <? 60)%nat then Ok None
  else
    match close with
    | FrameOf _ => Raise TypeError
    | SeriesOf s =>
        let c := s.*2 in
        let ma5 := rolling_mean 5 c in
        let ma20 := rolling_mean 20 c in
        let ma60 := rolling_mean 60 c in
        last_date ← iloc_neg s.*1 1;
        p ← iloc_neg c 1;
        let price := Fin p in
        dchg ← day_change_of c;
        golden_cross ← golden_cross_of ma5 ma20;
        vol_spike ← vol_spike_of vol;
        above_ma60 ← above_ma60_of price ma60;
        mret (Some {| ticker := t;
                      date := last_date;
                      price := py_round price 4;
                      d_change_pct := round_or_none dchg 2;
                      golden_cross_5_20 := golden_cross;
                      vol_spike_vs_20d := vol_spike;
                      above_ma60_pct := round_or_none above_ma60 2 |})
    end.

(** The head of the [try] block: [close] and [vol] are the ticker's
    [Close] and [Volume] columns, each with its own gaps dropped. *)
Definition select_columns (data : DataFrame) (t : string)
    : result (Selected * Selected) :=
  match columns data with
  | MultiIndex cols =>
      close ← getitem cols (t, "Close");
      vol ← getitem cols (t, "Volume");
      mret (dropna (index data) close, dropna (index data) vol)
  | Index cols =>
      close ← getitem cols "Close";
      vol ← getitem cols "Volume";
      mret (dropna (index data) close, dropna (index data) vol)
  end.

(** The [try] block for ticker [t]. *)
Definition try_ticker (data : DataFrame) (t : string) : result (option Row) :=
  cv ← select_columns data t;
  signals t cv.1 cv.2.

(** ** Sorting *)

(** A stable sort by a strict "comes before" test, as [sorted] and the
    multi-key [sort_values] are: an element is placed before the first
    element that does not come strictly before it. *)
Section StableSort.
Context {A : Type} (ltb : A → A → bool).

Fixpoint insert_stable (x : A) (l : list A) : list A :=
  match l with
  | [] => [x]
  | y :: l' => if ltb y x then y :: insert_stable x l' else x :: l
  end.

Definition stable_sort (l : list A) : list A := foldr insert_stable [] l.
End StableSort.

(** [sorted(set(universe))]: Python orders strings by code point, which on
    UTF-8 strings is the byte order of [String.compare]. *)
Definition py_set (l : list string) : list string := remove_dups l.
Definition sorted (l : list string) : list string := stable_sort String.ltb l.

(** Lexicographic combination of two comparisons. *)
Definition lex (c1 c2 : comparison) : comparison :=
  match c1 with
  | Eq => c2
  | _ => c1
  end.

(** Descending order on a boolean column: [Lt] reads "sorts before". *)
Definition bool_desc (a b : bool) : comparison :=
  match a, b with
  | true, false => Lt
  | false, true => Gt
  | _, _ => Eq
  end.

(** Ascending order on the doubles that are numbers (NaN, which no caller
    passes, is put last). *)
Definition fcompare (x y : float64) : comparison :=
  match x, y with
  | Fin a, Fin b => (a ?= b)%Q
  | NaN, NaN | PInf, PInf | NInf, NInf => Eq
  | _, NaN => Lt
  | NaN, _ => Gt
  | _, PInf => Lt
  | PInf, _ => Gt
  | NInf, _ => Lt
  | _, NInf => Gt
  end.

(** Descending order on a numeric column with [na_position='last']: a
    null cell ([None], which the frame stores as NaN) sorts after every
    number. *)
Definition num_desc (a b : option float64) : comparison :=
  match a, b with
  | (None | Some NaN), (None | Some NaN) => Eq
  | (None | Some NaN), Some _ => Gt
  | Some _, (None | Some NaN) => Lt
  | Some x, Some y => fcompare y x
  end.

(** The sort key of [df.sort_values([golden_cross_5_20, vol_spike_vs_20d,
    above_ma60_%, d_change_%], ascending=[False, False, False, False])]. *)
Definition rank_compare (a b : Row) : comparison :=
  lex (bool_desc (golden_cross_5_20 a) (golden_cross_5_20 b))
 (lex (bool_desc (vol_spike_vs_20d a) (vol_spike_vs_20d b))
 (lex (num_desc (above_ma60_pct a) (above_ma60_pct b))
      (num_desc (d_change_pct a) (d_change_pct b)))).

Definition rank_ltb (a b : Row) : bool :=
  match rank_compare a b with
  | Lt => true
  | _ => false
  end.

Definition sort_values (rows : list Row) : list Row :=
  stable_sort rank_ltb rows.

(** ** The engine *)

(** What [log] prints, without its timestamp. *)
Inductive diag : Type :=
| InsufficientData (t : string)
| ComputeFailed (t : string) (e : exn).

(** [universe]: the first level of every column labelled [Close], or the
    single pseudo-ticker of a flat frame. *)
Definition universe (data : DataFrame) : list string :=
  match columns data with
  | MultiIndex cols => (filter (λ c, c.1.2 = "Close") cols).*1.*1
  | Index _ => ["SINGLE"]
  end.

(** One iteration of the [for] loop over the state [(rows, printed log)]:
    the [except] clause turns every exception of the [try] block into a
    diagnostic. *)
Definition loop_body (data : DataFrame)
    (st : list Row * list diag) (t : string) : list Row * list diag :=
  match try_ticker data t with
  | Ok (Some r) => (st.1 ++ [r], st.2)
  | Ok None => (st.1, st.2 ++ [InsufficientData t])
  | Raise e => (st.1, st.2 ++ [ComputeFailed t e])
  end.

(** [compute_signals data], run with [out] already printed: the log after
    the run, and the ranked frame or the exception raised. *)
Definition compute_signals (data : DataFrame) (out : list diag)
    : list diag * result (list Row) :=
  let st := foldl (loop_body data) ([], out)
                  (sorted (py_set (universe data))) in
  match st.1 with
  | [] => (st.2, Raise RuntimeError)
  | rows => (st.2, Ok (sort_values rows))
  end.

(** * The glue around the engine

    [load_tickers], [fetch_prices], [export_reports], [send_email] and
    [main].  What they get from outside is an input of the model: the lines
    of the ticker file, the outcome of [yf.download], the environment
    variables, the outcome of the SMTP session and the timestamp of the
    report files.  Rendering ([to_csv], [to_html], the MIME encoding) is
    kept symbolic, and the output directory is taken to be writable. *)

(** ** Text *)

(** A Python [str]: a sequence of code points. *)
Definition str : Type := list N.

(** [str.isspace] on one code point: the Unicode white space. *)
Definition isspace (c : N) : bool :=
  ((9 <=? c) && (c <=? 13) || (28 <=? c) && (c <=? 32)
   || (c =? 133) || (c =? 160) || (c =? 5760)
   || (8192 <=? c) && (c <=? 8202)
   || (c =? 8232) || (c =? 8233) || (c =? 8239) || (c =? 8287)
   || (c =? 12288))%N.

Fixpoint lstrip (s : str) : str :=
  match s with
  | c :: s' => if isspace c then lstrip s' else s
  | [] => []
  end.

Definition rstrip (s : str) : str := reverse (lstrip (reverse s)).

(** [s.strip()] *)
Definition strip (s : str) : str := rstrip (lstrip s).

(** [s.split(sep)] for a separator of one code point: never empty, one
    more piece than there are separators. *)
Fixpoint split (sep : N) (s : str) : list str :=
  match s with
  | [] => [[]]
  | c :: s' =>
      if decide (c = sep) then [] :: split sep s'
      else match split sep s' with
           | piece :: pieces => (c :: piece) :: pieces
           | [] => [[c]]
           end
  end.

(** [sep.join(pieces)] *)
Fixpoint join (sep : str) (pieces : list str) : str :=
  match pieces with
  | [] => []
  | [p] => p
  | p :: ps => p ++ sep ++ join sep ps
  end.

(** [os.path.basename] on POSIX paths: what follows the last slash. *)
Definition basename (path : str) : str :=
  default [] (last (split 47%N path)).
Arguments basename : simpl never.

Definition hash : str := [35%N].
Definition comma : N := 44%N.
Definition comma_space : str := [44%N; 32%N].
Definition newline : N := 10%N.

(** ** Exceptions of the glue *)

Inductive glue_exn : Type :=
| FileNotFoundError            (* load_tickers: no ticker file *)
| NoTickers                    (* load_tickers: ValueError, nothing to scan *)
| NoData                       (* fetch_prices: RuntimeError, nothing downloaded *)
| EngineError (e : exn)        (* what compute_signals raises *)
| BadPort                      (* send_email: ValueError of int(SMTP_PORT) *)
| External (what : string).    (* raised by yfinance or by the SMTP session *)

Inductive attempt (A : Type) : Type :=
| Returns (a : A)
| Raises (e : glue_exn).
Arguments Returns {A} a.
Arguments Raises {A} e.

(** ** [load_tickers]

    [file] holds the lines of the ticker file as the iteration over the
    open file yields them, [None] when the file does not exist. *)
Definition load_tickers (file : option (list str)) : attempt (list str) :=
  match file with
  | None => Raises FileNotFoundError
  | Some f =>
      let tickers :=
        strip <$> filter (λ x, strip x ≠ [] ∧ ¬ hash `prefix_of` strip x) f in
      if decide (tickers = []) then Raises NoTickers else Returns tickers
  end.

(** ** [fetch_prices]

    [downloaded] is the outcome of [yf.download]: an exception, [None], or
    a frame, whose length is its number of rows.  The line the function
    prints before the download is the [Fetching] event of [pipeline]. *)
Definition fetch_prices (downloaded : attempt (option DataFrame))
    : attempt DataFrame :=
  match downloaded with
  | Raises e => Raises e
  | Returns None => Raises NoData
  | Returns (Some data) =>
      if decide (length (index data) = 0%nat) then Raises NoData
      else Returns data
  end.

(** ** The world outside *)

(** ASCII text as a [str]. *)
Definition text (s : string) : str :=
  N_of_ascii <$> list_ascii_of_string s.
Arguments text : simpl never.

(** The SMTP settings read from the environment.  [SMTP_PORT] is the
    value of [int(os.environ.get("SMTP_PORT", "587"))], [None] when [int]
    raises [ValueError]. *)
Record Env : Type := {
  SMTP_USER : option str;
  SMTP_PASS : option str;
  SMTP_TO : option str;
  SMTP_HOST : option str;
  SMTP_PORT : option Z
}.

(** What a file holds: a rendering of a frame, the error report, or
    anything else. *)
Inductive content : Type :=
| CsvOf (df : list Row)
| HtmlOf (df : list Row)
| ErrorReport (e : glue_exn)
| Other (bytes : list N).

Definition files : Type := str → option content.

Definition write (path : str) (c : content) (fs : files) : files :=
  λ q, if decide (q = path) then Some c else fs q.

Inductive subject : Type :=
| ScanSubject        (* the daily scan, with the Taipei time *)
| FailureSubject.    (* the failure notice *)

Inductive body : Type :=
| TopTen (rows : list Row)     (* df.head(10).to_html(index=False) *)
| Traceback (e : glue_exn).    (* traceback.format_exc() *)

Record Message : Type := {
  From : str;
  To : str;
  Subject : subject;
  Body : body;
  Attachments : list (str * content)   (* file name and payload *)
}.

(** One SMTP session: connect, STARTTLS, log in, send one message. *)
Record Session : Type := {
  host : str;
  port : Z;
  login_user : str;
  login_password : str;
  envelope_from : str;
  envelope_to : list str;
  payload : Message
}.

(** What [log] prints in the glue. *)
Inductive event : Type :=
| Loaded (n : nat) (shown : list str) (more : bool)
| Fetching (n : nat)
| Diag (d : diag)
| Exported (csv html : str)
| WarnIncomplete
| WarnNoRecipients
| WarnMissing (path : str)
| MailSent (recipients : list str)
| TaskFailed (e : glue_exn).

Record State : Type := {
  disk : files;
  printed : list event;
  sessions : list Session   (* the sessions that went through *)
}.

Definition log (ev : event) (st : State) : State :=
  {| disk := disk st; printed := printed st ++ [ev]; sessions := sessions st |}.

Definition log_all (evs : list event) (st : State) : State :=
  {| disk := disk st; printed := printed st ++ evs; sessions := sessions st |}.

Definition write_file (path : str) (c : content) (st : State) : State :=
  {| disk := write path c (disk st); printed := printed st;
     sessions := sessions st |}.

(** ** [send_email] *)

(** Truth value of an environment variable: set and not empty. *)
Definition truthy (v : option str) : bool :=
  match v with
  | Some (_ :: _) => true
  | _ => false
  end.

(** [[x.strip() for x in to.split(",") if x.strip()]] *)
Definition recipients_of (to : str) : list str :=
  strip <$> filter (λ x, strip x ≠ []) (split comma to).

(** The loop over the attachments: a path that does not exist is warned
    about and passed over, the others are attached in order under their
    base name. *)
Fixpoint attach_all (fs : files) (paths : list str)
    : list event * list (str * content) :=
  match paths with
  | [] => ([], [])
  | p :: ps =>
      let rest := attach_all fs ps in
      match fs p with
      | None => (WarnMissing p :: rest.1, rest.2)
      | Some c => (rest.1, (basename p, c) :: rest.2)
      end
  end.

Definition send_email (env : Env) (smtp : Session → option glue_exn)
    (subj : subject) (body_html : body) (attachments : list str)
    (st : State) : State * attempt bool :=
  let user := SMTP_USER env in
  let pwd := SMTP_PASS env in
  let to := default [] (SMTP_TO env) in
  let smtp_host := default (text "smtp.gmail.com") (SMTP_HOST env) in
  match SMTP_PORT env with
  | None => (st, Raises BadPort)
  | Some smtp_port =>
      if negb (truthy user && truthy pwd && truthy (Some to)) then
        (log WarnIncomplete st, Returns false)
      else
        let recipients := recipients_of to in
        if decide (recipients = []) then
          (log WarnNoRecipients st, Returns false)
        else
          let parts := attach_all (disk st) attachments in
          let msg := {| From := default [] user;
                        To := join comma_space recipients;
                        Subject := subj;
                        Body := body_html;
                        Attachments := parts.2 |} in
          let session := {| host := smtp_host; port := smtp_port;
                            login_user := default [] user;
                            login_password := default [] pwd;
                            envelope_from := default [] user;
                            envelope_to := recipients;
                            payload := msg |} in
          let st := log_all parts.1 st in
          match smtp session with
          | Some e => (st, Raises e)
          | None =>
              (log (MailSent recipients)
                   {| disk := disk st; printed := printed st;
                      sessions := sessions st ++ [session] |},
               Returns true)
          end
  end.

(** ** [export_reports]

    [stamp] is the timestamp that names the two report files. *)
Definition OUTPUT_DIR : str := text "output".

(** [os.path.join] of a directory and a file name, on POSIX. *)
Definition path_join (dir name : str) : str := dir ++ 47%N :: name.

Definition csv_path (stamp : str) : str :=
  path_join OUTPUT_DIR (text "scan_" ++ stamp ++ text ".csv").

Definition html_path (stamp : str) : str :=
  path_join OUTPUT_DIR (text "scan_" ++ stamp ++ text ".html").
Arguments csv_path : simpl never.
Arguments html_path : simpl never.

Definition export_reports (stamp : str) (df : list Row) (st : State)
    : State * (str * str) :=
  let st := write_file (csv_path stamp) (CsvOf df) st in
  let st := write_file (html_path stamp) (HtmlOf df) st in
  (log (Exported (csv_path stamp) (html_path stamp)) st,
   (csv_path stamp, html_path stamp)).

(** ** [main] *)

Record World : Type := {
  tickers_file : option (list str);
  download : list str → attempt (option DataFrame);
  environ : Env;
  smtp : Session → option glue_exn;
  stamp : str;
  files_before : files
}.

Definition err_path : str := path_join OUTPUT_DIR (text "error.txt").
Arguments err_path : simpl never.

(** The [try] block of [main]. *)
Definition pipeline (w : World) (st : State) : State * attempt bool :=
  match load_tickers (tickers_file w) with
  | Raises e => (st, Raises e)
  | Returns tickers =>
      let st := log (Loaded (length tickers) (take 10 tickers)
                            (10 <? length tickers)%nat) st in
      let st := log (Fetching (length tickers)) st in
      match fetch_prices (download w tickers) with
      | Raises e => (st, Raises e)
      | Returns data =>
          let run := compute_signals data [] in
          let st := log_all (Diag <$> run.1) st in
          match run.2 with
          | Raise e => (st, Raises (EngineError e))
          | Ok df =>
              let exported := export_reports (stamp w) df st in
              send_email (environ w) (smtp w) ScanSubject (TopTen (take 10 df))
                         [exported.2.1; exported.2.2] exported.1
          end
      end
  end.

(** The state in which [main] starts: the files already there, nothing
    printed, no mail sent. *)
Definition initial (w : World) : State :=
  {| disk := files_before w; printed := []; sessions := [] |}.

(** [main]: the [try] block, and on any exception the error report and
    the failure notice; an exception of the failure notice leaves [main]. *)
Definition main (w : World) : State * attempt unit :=
  match pipeline w (initial w) with
  | (st, Returns _) => (st, Returns ())
  | (st, Raises e) =>
      let st := log (TaskFailed e) st in
      let st := write_file err_path (ErrorReport e) st in
      match send_email (environ w) (smtp w) FailureSubject (Traceback e)
                       [err_path] st with
      | (st, Returns _) => (st, Returns ())
      | (st, Raises e') => (st, Raises e')
      end
  end.

(** ** Stages of [main] *)

(** The states the [try] block goes through. *)
Definition after_load (w : World) (tickers : list str) : State :=
  log (Fetching (length tickers))
      (log (Loaded (length tickers) (take 10 tickers) (10 <? length tickers)%nat)
           (initial w)).

Definition after_engine (w : World) (tickers : list str) (data : DataFrame)
    : State :=
  log_all (Diag <$> (compute_signals data []).1) (after_load w tickers).

(** What the scan mail is sent from: the state after the export and the
    outcome of [send_email] there. *)
Definition scan_mail (w : World) (df : list Row) (st0 : State)
    : State * attempt bool :=
  send_email (environ w) (smtp w) ScanSubject (TopTen (take 10 df))
             [csv_path (stamp w); html_path (stamp w)]
             (export_reports (stamp w) df st0).1.

(** The failure notice: what the [except] block of [main] does with the
    exception [e] of the [try] block, left in state [st]. *)
Definition failure_notice (w : World) (e : glue_exn) (st : State)
    : State * attempt bool :=
  send_email (environ w) (smtp w) FailureSubject (Traceback e) [err_path]
             (write_file err_path (ErrorReport e) (log (TaskFailed e) st)).

(** ** Vocabulary for the glue *)

(** Nothing to strip: not empty, no white space at either end. *)
Definition trimmed (s : str) : Prop :=
  s ≠ []
  ∧ (∀ c, head s = Some c → isspace c = false)
  ∧ (∀ c, last s = Some c → isspace c = false).

(** * Vocabulary of the specification *)

(** ** Means and windows *)

Definition Qsum (l : list Q) : Q := foldr Qplus 0%Q l.

(** The arithmetic mean of a list of values, in the specification's words. *)
Definition arith_mean (l : list Q) : Q :=
  (Qsum l / inject_Z (Z.of_nat (length l)))%Q.

(** The last [n] elements of a list (all of it when it is shorter). *)
Definition last_n {A} (n : nat) (l : list A) : list A :=
  drop (length l - n) l.

(** ** Orders *)

(** A three-way comparison that is a total preorder. *)
Class CmpOrder {A : Type} (c : A → A → comparison) : Prop := {
  cmp_antisym x y : c y x = CompOpp (c x y);
  cmp_eq_l x y z : c x y = Eq → c x z = c y z;
  cmp_lt_trans x y z : c x y = Lt → c y z = Lt → c x z = Lt
}.

(** Strictly ascending lists of strings. *)
Definition ascending (l : list string) : Prop :=
  StronglySorted (λ a b, String.compare a b = Lt) l.

(** The ranking order in the specification's words. *)

(** [x] is a smaller number than [y]; [x] and [y] are the same number. *)
Definition num_lt (x y : float64) : Prop :=
  match x, y with
  | Fin a, Fin b => (a < b)%Q
  | NInf, (Fin _ | PInf) | Fin _, PInf => True
  | _, _ => False
  end.

Definition num_eq (x y : float64) : Prop :=
  match x, y with
  | Fin a, Fin b => (a == b)%Q
  | PInf, PInf | NInf, NInf => True
  | _, _ => False
  end.

(** A percentage cell holds the number [x]; a cell is absent. *)
Definition holds (o : option float64) (x : float64) : Prop :=
  o = Some x ∧ x ≠ NaN.

Definition absent (o : option float64) : Prop :=
  o = None ∨ o = Some NaN.

(** Descending, absent last: a cell comes strictly before another when it
    holds a number and the other is absent or holds a smaller number. *)
Definition cell_before (a b : option float64) : Prop :=
  ∃ x, holds a x ∧ (absent b ∨ ∃ y, holds b y ∧ num_lt y x).

Definition cell_tied (a b : option float64) : Prop :=
  (absent a ∧ absent b) ∨ (∃ x y, holds a x ∧ holds b y ∧ num_eq x y).

(** Descending on a flag: [true] comes strictly before [false]. *)
Definition flag_before (a b : bool) : Prop := a = true ∧ b = false.

(** Row [a] may stand before row [b]: on the first key of
    (goldenCross5x20, volumeSpike, aboveLongMAPct, dayChangePct) on which
    they differ, [a] comes before [b]; or they tie on all four. *)
Definition ranks_no_later (a b : Row) : Prop :=
  flag_before (golden_cross_5_20 a) (golden_cross_5_20 b)
  ∨ golden_cross_5_20 a = golden_cross_5_20 b
    ∧ (flag_before (vol_spike_vs_20d a) (vol_spike_vs_20d b)
       ∨ vol_spike_vs_20d a = vol_spike_vs_20d b
         ∧ (cell_before (above_ma60_pct a) (above_ma60_pct b)
            ∨ cell_tied (above_ma60_pct a) (above_ma60_pct b)
              ∧ (cell_before (d_change_pct a) (d_change_pct b)
                 ∨ cell_tied (d_change_pct a) (d_change_pct b)))).

(** ** Clean observations *)

(** The glossary's clean observations of a ticker: the trading days on
    which both its price and its volume are present. *)
Definition clean_observations (ccol vcol : Column) : nat :=
  length (filter (λ p : option Q * option Q, is_Some p.1 ∧ is_Some p.2)
                 (zip ccol vcol)).

(** ** The loop, ticker by ticker *)

(** The rows and diagnostics of the tickers, in the words of the
    specification: a ticker yields a record, is skipped for lack of
    history, or fails. *)
Definition record_of (data : DataFrame) (t : string) : option Row :=
  match try_ticker data t with
  | Ok (Some r) => Some r
  | _ => None
  end.

Definition diag_of (data : DataFrame) (t : string) : option diag :=
  match try_ticker data t with
  | Ok (Some _) => None
  | Ok None => Some (InsufficientData t)
  | Raise e => Some (ComputeFailed t e)
  end.

(** The tickers in the order the loop visits them, and the rows the loop
    has appended when it ends (the frame that enters [sort_values]). *)
Definition tickers (data : DataFrame) : list string :=
  sorted (py_set (universe data)).

Definition assembled (data : DataFrame) : list Row :=
  omap (record_of data) (tickers data).

(** ** A sample frame

    Sixty-one trading days and six tickers: [RAMP] rises by one a day,
    [CROSS] is flat, dips and jumps on the last day on ten times its usual
    volume, [THIN] has three volume values only, [ZERO] is quoted at zero,
    [NOVOL] has sixty closes and no volume at all, [SHORT] has fifty-nine
    closes. *)
Module Sample.
Definition day (i : nat) : label :=
  String (ascii_of_nat (48 + i / 10))
    (String (ascii_of_nat (48 + i mod 10)) EmptyString).

Definition days (n : nat) : list label := day <$> seq 0 n.

Definition ramp (n : nat) : Column :=
  (λ i, Some (inject_Z (Z.of_nat (S i)))) <$> seq 0 n.

Definition flat (n : nat) (q : Q) : Column := replicate n (Some q).

Definition gaps (n : nat) : Column := replicate n None.

Definition novol_close : Column := ramp 60 ++ gaps 1.
Definition novol_volume : Column := gaps 61.
Definition thin_close : Column := gaps 1 ++ ramp 60.
Definition thin_volume : Column := gaps 58 ++ ramp 3.

Definition frame : DataFrame :=
  {| index := days 61;
     columns := MultiIndex
       [ (("RAMP", "Close"), ramp 61);
         (("RAMP", "Volume"), ramp 61);
         (("NOVOL", "Close"), novol_close);
         (("NOVOL", "Volume"), novol_volume);
         (("ZERO", "Close"), flat 61 0);
         (("ZERO", "Volume"), flat 61 5);
         (("CROSS", "Close"), flat 59 100 ++ [Some 90; Some 200]%Q);
         (("CROSS", "Volume"), flat 60 100 ++ [Some 1000%Q]);
         (("THIN", "Close"), thin_close);
         (("THIN", "Volume"), thin_volume);
         (("SHORT", "Close"), ramp 59 ++ gaps 2);
         (("SHORT", "Volume"), ramp 61) ] |}.

(** [close] and [vol] as the [try] block binds them for a ticker. *)
Definition close (t : string) : Selected :=
  match select_columns frame t with
  | Ok cv => cv.1
  | Raise _ => SeriesOf []
  end.

Definition vol (t : string) : Selected :=
  match select_columns frame t with
  | Ok cv => cv.2
  | Raise _ => SeriesOf []
  end.

End Sample.

Module SampleRows.
Definition cross : Row :=
  {| ticker := "CROSS"; date := "60"; price := Fin 200.0000;
     d_change_pct := Some (Fin 122.22);
     golden_cross_5_20 := true; vol_spike_vs_20d := true;
     above_ma60_pct := Some (Fin 97.04) |}.

Definition thin : Row :=
  {| ticker := "THIN"; date := "60"; price := Fin 60.0000;
     d_change_pct := Some (Fin 1.69);
     golden_cross_5_20 := false; vol_spike_vs_20d := false;
     above_ma60_pct := Some (Fin 96.72) |}.

Definition ramp : Row :=
  {| ticker := "RAMP"; date := "60"; price := Fin 61.0000;
     d_change_pct := Some (Fin 1.67);
     golden_cross_5_20 := false; vol_spike_vs_20d := false;
     above_ma60_pct := Some (Fin 93.65) |}.

Definition zero : Row :=
  {| ticker := "ZERO"; date := "60"; price := Fin 0.0000;
     d_change_pct := None;
     golden_cross_5_20 := false; vol_spike_vs_20d := false;
     above_ma60_pct := None |}.

Definition ranked : list Row := [cross; thin; ramp; zero].

(** The loop state before the first iteration of a fresh run. *)
Definition start : list Row * list diag := ([], []).
End SampleRows.

(** ** Further sample inputs *)
Module Cases.
(** A Close column whose last day is a gap, cleaned. *)
Definition trailing_gap : Selected :=
  dropna (Sample.days 61) (OneColumn Sample.novol_close).

Definition trailing_gap_row : Row :=
  {| ticker := "GAP"; date := "59"; price := Fin 60.0000;
     d_change_pct := Some (Fin 1.69);
     golden_cross_5_20 := false; vol_spike_vs_20d := false;
     above_ma60_pct := Some (Fin 96.72) |}.

Definition cols_without_volume : list ((string * string) * Column) :=
  [ (("A", "Close"), Sample.ramp 61) ].

Definition frame_without_volume : DataFrame :=
  {| index := Sample.days 61; columns := MultiIndex cols_without_volume |}.

Definition cols_repeated : list ((string * string) * Column) :=
  [ (("A", "Close"), Sample.ramp 61);
    (("A", "Close"), Sample.ramp 61);
    (("A", "Volume"), Sample.ramp 61) ].

Definition frame_repeated : DataFrame :=
  {| index := Sample.days 61; columns := MultiIndex cols_repeated |}.

Definition cols_flat : list (string * Column) :=
  [ ("Close", Sample.ramp 61); ("Volume", Sample.ramp 61) ].

Definition flat_frame : DataFrame :=
  {| index := Sample.days 61; columns := Index cols_flat |}.

Definition single_row : Row :=
  {| ticker := "SINGLE"; date := "60"; price := Fin 61.0000;
     d_change_pct := Some (Fin 1.67);
     golden_cross_5_20 := false; vol_spike_vs_20d := false;
     above_ma60_pct := Some (Fin 93.65) |}.

Definition cols_flat_close_only : list (string * Column) :=
  [ ("Close", Sample.ramp 61) ].

Definition flat_frame_close_only : DataFrame :=
  {| index := Sample.days 61; columns := Index cols_flat_close_only |}.

Definition cols_open_only : list ((string * string) * Column) :=
  [ (("A", "Open"), Sample.ramp 61) ].

Definition frame_open_only : DataFrame :=
  {| index := Sample.days 61; columns := MultiIndex cols_open_only |}.


(** A ticker file: padded names, a comment, a blank line. *)
Definition ticker_lines : list str :=
  [ text "  RAMP " ++ [newline];
    text "# not a ticker" ++ [newline];
    [newline];
    text "CROSS" ++ [newline] ].

Definition env : Env :=
  {| SMTP_USER := Some (text "me@example.org");
     SMTP_PASS := Some (text "secret");
     SMTP_TO := Some (text "a@example.org, ,b@example.org ");
     SMTP_HOST := None;
     SMTP_PORT := Some 587%Z |}.

(** A disk with one file. *)
Definition one_file : files :=
  write (text "output/a.csv") (Other [1%N]) (λ _, None).

Definition start : State :=
  {| disk := one_file; printed := []; sessions := [] |}.

(** A run in which everything works, and one without a ticker file. *)
Definition world : World :=
  {| tickers_file := Some ticker_lines;
     download := λ _, Returns (Some Sample.frame);
     environ := env;
     smtp := λ _, None;
     stamp := text "20240102_0930";
     files_before := λ _, None |}.

Definition world_without_file : World :=
  {| tickers_file := None;
     download := λ _, Returns (Some Sample.frame);
     environ := env;
     smtp := λ _, None;
     stamp := text "20240102_0930";
     files_before := λ _, None |}.

(** Where the [try] block of [main] leaves the first run. *)
Definition final : State := (pipeline world (initial world)).1.
End Cases.

(** * Properties *)

(** ** Indexing from the end *)

Lemma iloc_neg_Ok {A} (l : list A) (k : nat) (x : A) :
  (1 ≤ k)%nat →
  iloc_neg l k = Ok x ↔ (k ≤ length l)%nat ∧ l !! (length l - k)%nat = Some x.
Proof.
  intros Hk. unfold iloc_neg.
  destruct (Nat.leb_spec k (length l)) as [Hle|Hgt].
  - destruct (l !! (length l - k)%nat) as [y|] eqn:E; split.
    + intros [= ->]. auto.
    + intros [_ [= ->]]. reflexivity.
    + discriminate.
    + intros [_ ?]. discriminate.
  - split; [discriminate|]. intros [? _]. lia.
Qed.

Lemma iloc_neg_in_range {A} (l : list A) (k : nat) :
  (1 ≤ k ≤ length l)%nat →
  ∃ x, iloc_neg l k = Ok x ∧ l !! (length l - k)%nat = Some x.
Proof.
  intros [H1 H2].
  destruct (lookup_lt_is_Some_2 l (length l - k)%nat) as [x Hx]; [lia|].
  exists x. split; [|done]. apply iloc_neg_Ok; auto.
Qed.

Lemma iloc_neg_out_of_range {A} (l : list A) (k : nat) :
  (length l < k)%nat → iloc_neg l k = Raise IndexError.
Proof.
  intros H. unfold iloc_neg.
  destruct (Nat.leb_spec k (length l)); [lia|done].
Qed.

(** ** The rolling mean is the arithmetic mean of the trailing window *)

Lemma Qsum_app (a b : list Q) : (Qsum (a ++ b) == Qsum a + Qsum b)%Q.
Proof.
  induction a as [|x a IH]; simpl.
  - ring.
  - rewrite IH. ring.
Qed.

Lemma last_n_short {A} (n : nat) (l : list A) :
  (length l ≤ n)%nat → last_n n l = l.
Proof.
  intros H. unfold last_n. replace (length l - n)%nat with 0%nat by lia. done.
Qed.

Lemma length_last_n {A} (n : nat) (l : list A) :
  length (last_n n l) = (length l `min` n)%nat.
Proof. unfold last_n. rewrite length_drop. lia. Qed.

Lemma last_n_app_last_n {A} (n : nat) (a b : list A) :
  last_n n (last_n n a ++ b) = last_n n (a ++ b).
Proof.
  unfold last_n. rewrite !length_app, length_drop.
  destruct (Nat.le_gt_cases (length a) n) as [Hle|Hgt].
  - replace (length a - n)%nat with 0%nat by lia. rewrite drop_0.
    f_equal. lia.
  - rewrite !drop_app, drop_drop, length_drop.
    f_equal; f_equal; lia.
Qed.

Lemma slide_spec (w : nat) (win : list Q) (s x : Q) :
  (0 < w)%nat → (length win ≤ w)%nat → (s == Qsum win)%Q →
  (slide w win s x).1 = last_n w (win ++ [x]) ∧
  ((slide w win s x).2 == Qsum (slide w win s x).1)%Q ∧
  (length (slide w win s x).1 ≤ w)%nat.
Proof.
  intros Hw Hlen Hs. unfold slide.
  destruct (Nat.ltb_spec (length win) w) as [Hlt|Hge]; simpl.
  - rewrite last_n_short by (rewrite length_app; simpl; lia).
    split; [done|]. split.
    + rewrite Qsum_app, Hs. simpl. ring.
    + rewrite length_app. simpl. lia.
  - destruct win as [|old rest]; simpl in *; [lia|].
    split; [|split].
    + unfold last_n. simpl. rewrite length_app. simpl.
      replace (S (length rest + 1) - w)%nat with 1%nat by lia. done.
    + rewrite Qsum_app, Hs. simpl. ring.
    + rewrite length_app. simpl. lia.
Qed.

Lemma length_roll_mean (w : nat) (xs : list Q) :
  ∀ win s, length (roll_mean w win s xs) = length xs.
Proof.
  induction xs as [|x xs IH]; intros win s; simpl; [done|].
  destruct (slide w win s x) as [win' s']. simpl. by rewrite IH.
Qed.

Lemma length_rolling_mean (w : nat) (xs : list Q) :
  length (rolling_mean w xs) = length xs.
Proof. apply length_roll_mean. Qed.

(** Every output of the sliding computation is [calc_mean] of the trailing
    window of the values seen so far and of (a rational equal to) its sum. *)
Lemma roll_mean_lookup (w : nat) (xs : list Q) :
  (0 < w)%nat →
  ∀ win s i,
    (length win ≤ w)%nat → (s == Qsum win)%Q → (i < length xs)%nat →
    ∃ s', roll_mean w win s xs !! i
          = Some (calc_mean w (length (last_n w (win ++ take (S i) xs))) s')
        ∧ (s' == Qsum (last_n w (win ++ take (S i) xs)))%Q.
Proof.
  intros Hw. induction xs as [|x xs IH]; intros win s i Hlen Hs Hi; simpl in Hi; [lia|].
  destruct (slide_spec w win s x Hw Hlen Hs) as (Hwin & Hsum & Hlen').
  simpl. destruct (slide w win s x) as [win' s'] eqn:E. simpl in *.
  destruct i as [|i].
  - exists s'. simpl. rewrite take_0, <- Hwin. done.
  - destruct (IH win' s' i Hlen' Hsum ltac:(lia)) as (s'' & Hl & Hs'').
    exists s''. simpl.
    assert (last_n w (win' ++ take (S i) xs) = last_n w (win ++ x :: take (S i) xs)) as Heq.
    { rewrite Hwin, last_n_app_last_n, <- app_assoc. done. }
    rewrite <- Heq. done.
Qed.

Lemma rolling_mean_defined (w : nat) (xs : list Q) (i : nat) :
  (0 < w)%nat → (w ≤ S i)%nat → (i < length xs)%nat →
  ∃ m, rolling_mean w xs !! i = Some (Fin m)
     ∧ (m == arith_mean (last_n w (take (S i) xs)))%Q.
Proof.
  intros Hw Hwi Hi.
  destruct (roll_mean_lookup w xs Hw [] 0%Q i) as (s & Hl & Hs);
    [simpl; lia|reflexivity|done|].
  simpl in Hl, Hs.
  assert (length (last_n w (take (S i) xs)) = w) as Hlen.
  { rewrite length_last_n, length_take. lia. }
  exists (s / inject_Z (Z.of_nat w))%Q. split.
  - unfold rolling_mean. rewrite Hl, Hlen. unfold calc_mean.
    destruct (Nat.leb_spec w w); [|lia].
    destruct (Nat.ltb_spec 0 w); [|lia]. done.
  - unfold arith_mean. rewrite Hlen, Hs. reflexivity.
Qed.

Lemma rolling_mean_undefined (w : nat) (xs : list Q) (i : nat) :
  (S i < w)%nat → (i < length xs)%nat →
  rolling_mean w xs !! i = Some NaN.
Proof.
  intros Hwi Hi.
  destruct (roll_mean_lookup w xs ltac:(lia) [] 0%Q i) as (s & Hl & Hs);
    [simpl; lia|reflexivity|done|].
  simpl in Hl. unfold rolling_mean. rewrite Hl.
  unfold calc_mean. rewrite length_last_n, length_take.
  destruct (Nat.leb_spec w ((S i `min` length xs) `min` w)); [lia|]. done.
Qed.


(** ** Comparisons that are total preorders *)

Section CmpOrderFacts.
Context {A : Type} (c : A → A → comparison) `{!CmpOrder c}.

Lemma cmp_refl x : c x x = Eq.
Proof. pose proof (cmp_antisym x x) as H. destruct (c x x); done. Qed.

Lemma cmp_eq_r x y z : c y z = Eq → c x y = c x z.
Proof.
  intros H.
  assert (c z y = Eq) as H' by (rewrite cmp_antisym, H; done).
  pose proof (cmp_eq_l z y x H') as E.
  rewrite (cmp_antisym x z), (cmp_antisym x y) in E.
  destruct (c x y), (c x z); simpl in E; congruence.
Qed.

(** "Does not sort after" is transitive. *)
Lemma cmp_not_gt_trans x y z : c x y ≠ Gt → c y z ≠ Gt → c x z ≠ Gt.
Proof.
  intros Hxy Hyz.
  destruct (c x y) eqn:Exy; [| |done].
  - rewrite (cmp_eq_l x y z Exy). done.
  - destruct (c y z) eqn:Eyz; [| |done].
    + rewrite <- (cmp_eq_r x y z Eyz), Exy. done.
    + rewrite (cmp_lt_trans x y z Exy Eyz). done.
Qed.
End CmpOrderFacts.

(** A comparison on a projection, then a second comparison on ties. *)
Lemma CmpOrder_lex {A B : Type} (f : A → B)
    (c1 : B → B → comparison) (c2 : A → A → comparison) :
  CmpOrder c1 → CmpOrder c2 →
  CmpOrder (λ a b, lex (c1 (f a) (f b)) (c2 a b)).
Proof.
  intros H1 H2. split.
  - intros x y. cbv beta.
    rewrite (cmp_antisym (c:=c1) (f x) (f y)), (cmp_antisym (c:=c2) x y).
    destruct (c1 (f x) (f y)); done.
  - intros x y z. unfold lex.
    destruct (c1 (f x) (f y)) eqn:E1; [|done..].
    intros E2. rewrite (cmp_eq_l (c:=c1) _ _ (f z) E1).
    rewrite (cmp_eq_l (c:=c2) _ _ z E2). done.
  - intros x y z. unfold lex.
    destruct (c1 (f x) (f y)) eqn:E1; [| |done].
    + rewrite (cmp_eq_l (c:=c1) _ _ (f z) E1). intros E2.
      destruct (c1 (f y) (f z)); [|done..].
      apply cmp_lt_trans. done.
    + intros _. destruct (c1 (f y) (f z)) eqn:E2; [| |done].
      * rewrite <- (cmp_eq_r c1 _ _ _ E2), E1. done.
      * rewrite (cmp_lt_trans (c:=c1) _ _ _ E1 E2). done.
Qed.

Lemma CmpOrder_on {A B : Type} (f : A → B) (c : B → B → comparison) :
  CmpOrder c → CmpOrder (λ a b, c (f a) (f b)).
Proof.
  intros H. split; intros.
  - apply (cmp_antisym (c:=c)).
  - by apply (cmp_eq_l (c:=c)).
  - by eapply (cmp_lt_trans (c:=c)).
Qed.

#[global] Instance bool_desc_order : CmpOrder bool_desc.
Proof. split; [intros [] []|intros [] [] []..]; done. Qed.

#[global] Instance Qcompare_order : CmpOrder Qcompare.
Proof.
  split.
  - intros x y. symmetry. apply Qcompare_antisym.
  - intros x y z H. apply Qeq_alt in H. rewrite H. done.
  - intros x y z H1 H2. apply Qlt_alt in H1, H2. apply Qlt_alt.
    by eapply Qlt_trans.
Qed.

#[global] Instance fcompare_order : CmpOrder fcompare.
Proof.
  split.
  - intros [a| | |] [b| | |]; simpl; try done. apply (cmp_antisym (c:=Qcompare)).
  - intros [a| | |] [b| | |] [d| | |]; simpl; try done.
    apply (cmp_eq_l (c:=Qcompare)).
  - intros [a| | |] [b| | |] [d| | |]; simpl; try done.
    apply (cmp_lt_trans (c:=Qcompare)).
Qed.

#[global] Instance num_desc_order : CmpOrder num_desc.
Proof.
  split.
  - intros [[a| | |]|] [[b| | |]|]; simpl; try done;
      apply (cmp_antisym (c:=fcompare) (Fin _) (Fin _)).
  - intros [[a| | |]|] [[b| | |]|] [[d| | |]|]; simpl; try done.
    intros H. symmetry. apply (cmp_eq_r Qcompare d b a H).
  - intros [[a| | |]|] [[b| | |]|] [[d| | |]|]; simpl; try done.
    intros H1 H2. apply (cmp_lt_trans (c:=Qcompare) d b a); done.
Qed.

#[global] Instance rank_compare_order : CmpOrder rank_compare.
Proof.
  unfold rank_compare.
  apply (CmpOrder_lex golden_cross_5_20 bool_desc); [apply _|].
  apply (CmpOrder_lex vol_spike_vs_20d bool_desc); [apply _|].
  apply (CmpOrder_lex above_ma60_pct num_desc); [apply _|].
  apply (CmpOrder_on d_change_pct num_desc). apply _.
Qed.

(** ** The stable sort sorts *)

Section StableSortFacts.
Context {A : Type} (c : A → A → comparison) `{!CmpOrder c}.
Context (ltb : A → A → bool).
Hypothesis ltb_spec : ∀ a b, ltb a b = true ↔ c a b = Lt.

Lemma insert_stable_perm (x : A) (l : list A) :
  insert_stable ltb x l ≡ₚ x :: l.
Proof.
  induction l as [|y l IH]; simpl; [done|].
  destruct (ltb y x); [|done].
  rewrite IH. apply perm_swap.
Qed.

Lemma stable_sort_perm (l : list A) : stable_sort ltb l ≡ₚ l.
Proof.
  induction l as [|x l IH]; simpl; [done|].
  rewrite insert_stable_perm, IH. done.
Qed.

Lemma insert_stable_sorted (x : A) (l : list A) :
  StronglySorted (λ a b, c a b ≠ Gt) l →
  StronglySorted (λ a b, c a b ≠ Gt) (insert_stable ltb x l).
Proof.
  induction 1 as [|y l Hs IH Hy]; simpl.
  - repeat constructor.
  - destruct (ltb y x) eqn:E.
    + apply ltb_spec in E. constructor; [done|].
      rewrite insert_stable_perm. constructor; [congruence|done].
    + assert (c x y ≠ Gt) as Hxy.
      { rewrite (cmp_antisym (c:=c)). intros H.
        assert (c y x = Lt) as H' by (destruct (c y x); done).
        apply ltb_spec in H'. congruence. }
      constructor; [by constructor|].
      constructor; [done|].
      eapply Forall_impl; [exact Hy|]. intros z Hz.
      by apply (cmp_not_gt_trans c x y z).
Qed.

Lemma stable_sort_sorted (l : list A) :
  StronglySorted (λ a b, c a b ≠ Gt) (stable_sort ltb l).
Proof.
  induction l as [|x l IH]; simpl; [constructor|].
  by apply insert_stable_sorted.
Qed.
End StableSortFacts.

Lemma StronglySorted_mono {A} (R S : A → A → Prop) (l : list A) :
  (∀ a b, R a b → S a b) → StronglySorted R l → StronglySorted S l.
Proof.
  intros HRS. induction 1 as [|x l Hs IH Hx]; constructor; [done|].
  eapply Forall_impl; [exact Hx|]. intros y. apply HRS.
Qed.

Lemma StronglySorted_strict {A} (R : A → A → Prop) (l : list A) :
  StronglySorted R l → NoDup l →
  StronglySorted (λ a b, R a b ∧ a ≠ b) l.
Proof.
  induction 1 as [|x l Hs IH Hx]; intros Hnd; [constructor|].
  apply NoDup_cons in Hnd as [Hx' Hnd].
  constructor; [by apply IH|].
  apply Forall_forall. intros y Hy. split.
  - by eapply Forall_forall in Hx.
  - intros ->. done.
Qed.

(** *** Strings *)

#[global] Instance string_compare_order : CmpOrder String.compare.
Proof.
  split.
  - intros x y. apply String.compare_antisym.
  - intros x y z H. apply String.compare_eq_iff in H. by subst.
  - intros x y z H1 H2.
    apply String_as_OT.cmp_lt in H1, H2. apply String_as_OT.cmp_lt.
    by eapply String_as_OT.lt_trans.
Qed.

Lemma string_ltb_spec (a b : string) :
  String.ltb a b = true ↔ String.compare a b = Lt.
Proof. unfold String.ltb. destruct (String.compare a b); done. Qed.

Lemma ascending_NoDup (l : list string) : ascending l → NoDup l.
Proof.
  induction 1 as [|x l Hs IH Hx]; constructor; [|done].
  intros Hin. eapply Forall_forall in Hx; [|exact Hin].
  rewrite (cmp_refl String.compare) in Hx. done.
Qed.

Lemma ascending_sublist (l k : list string) :
  sublist l k → ascending k → ascending l.
Proof.
  intros Hsub Hk. revert l Hsub.
  induction Hk as [|x k Hs IH Hx]; intros l Hsub.
  - apply sublist_nil_r in Hsub. subst. constructor.
  - apply sublist_cons_r in Hsub as [Hsub|(l' & -> & Hsub)]; [by apply IH|].
    constructor; [by apply IH|].
    apply Forall_forall. intros y Hy.
    eapply Forall_forall in Hx; [exact Hx|].
    by eapply elem_of_sublist.
Qed.

Lemma sorted_py_set_ascending (l : list string) : ascending (sorted (py_set l)).
Proof.
  unfold ascending, sorted.
  pose proof (stable_sort_sorted String.compare String.ltb string_ltb_spec
                (py_set l)) as Hs.
  apply StronglySorted_strict in Hs.
  - revert Hs. apply StronglySorted_mono. intros a b [Hab Hne]. simpl in Hab.
    destruct (String.compare a b) eqn:E; [|done..].
    by apply String.compare_eq_iff in E.
  - rewrite (stable_sort_perm String.ltb).
    apply NoDup_remove_dups.
Qed.

Lemma elem_of_sorted_py_set (l : list string) (t : string) :
  t ∈ sorted (py_set l) ↔ t ∈ l.
Proof.
  unfold sorted, py_set.
  rewrite (stable_sort_perm String.ltb).
  apply elem_of_remove_dups.
Qed.

(** ** The error monad *)

Lemma bind_Ok {A B} (m : result A) (k : A → result B) (b : B) :
  m ≫= k = Ok b ↔ ∃ a, m = Ok a ∧ k a = Ok b.
Proof.
  destruct m as [a|e]; simpl; split.
  - eauto.
  - by intros (a' & [= ->] & ?).
  - done.
  - by intros (? & ? & ?).
Qed.

Ltac inv_bind H :=
  repeat match type of H with
  | _ ≫= _ = Ok _ =>
      let x := fresh "x" in
      let Hx := fresh "H" x in
      apply bind_Ok in H as (x & Hx & H)
  end.

(** ** What an included ticker went through *)

Lemma foldl_loop_body (data : DataFrame) (ts : list string) :
  ∀ st, foldl (loop_body data) st ts
        = (st.1 ++ omap (record_of data) ts, st.2 ++ omap (diag_of data) ts).
Proof.
  induction ts as [|t ts IH]; intros [rows out]; simpl.
  - by rewrite !app_nil_r.
  - rewrite IH. unfold loop_body, record_of, diag_of.
    destruct (try_ticker data t) as [[r|]|e]; simpl;
      by rewrite <- ?app_assoc.
Qed.

Lemma compute_signals_eq (data : DataFrame) (out : list diag) :
  compute_signals data out
  = (out ++ omap (diag_of data) (tickers data),
     match assembled data with
     | [] => Raise RuntimeError
     | rows => Ok (sort_values rows)
     end).
Proof.
  unfold compute_signals. rewrite foldl_loop_body. simpl.
  fold (tickers data). fold (assembled data).
  by destruct (assembled data).
Qed.

Lemma signals_included (t : string) (close vol : Selected) (r : Row) :
  signals t close vol = Ok (Some r) →
  ∃ s d p dchg gc vs ab,
    close = SeriesOf s ∧ (60 ≤ length s)%nat ∧
    iloc_neg s.*1 1 = Ok d ∧
    iloc_neg s.*2 1 = Ok p ∧
    day_change_of s.*2 = Ok dchg ∧
    golden_cross_of (rolling_mean 5 s.*2) (rolling_mean 20 s.*2) = Ok gc ∧
    vol_spike_of vol = Ok vs ∧
    above_ma60_of (Fin p) (rolling_mean 60 s.*2) = Ok ab ∧
    r = {| ticker := t; date := d; price := py_round (Fin p) 4;
           d_change_pct := round_or_none dchg 2;
           golden_cross_5_20 := gc; vol_spike_vs_20d := vs;
           above_ma60_pct := round_or_none ab 2 |}.
Proof.
  unfold signals. intros H.
  destruct (Nat.ltb_spec (len close) 60) as [Hlt|Hge]; [done|].
  destruct close as [s|rows]; [|done]. simpl in Hge.
  inv_bind H. injection H as <-.
  exists s, x, x0, x1, x2, x3, x4. by repeat split.
Qed.

Lemma signals_ticker (t : string) (close vol : Selected) (r : Row) :
  signals t close vol = Ok (Some r) → ticker r = t.
Proof.
  intros H. apply signals_included in H as (s&d&p&dchg&gc&vs&ab&_&_&_&_&_&_&_&_&->).
  done.
Qed.

Lemma try_ticker_ticker (data : DataFrame) (t : string) (r : Row) :
  try_ticker data t = Ok (Some r) → ticker r = t.
Proof.
  unfold try_ticker. intros H. inv_bind H. by eapply signals_ticker.
Qed.

Lemma record_of_ticker (data : DataFrame) (t : string) (r : Row) :
  record_of data t = Some r → ticker r = t.
Proof.
  unfold record_of. destruct (try_ticker data t) as [[r'|]|] eqn:E; [|done..].
  intros [= ->]. by eapply try_ticker_ticker.
Qed.

(** The tickers of the assembled rows are a sub-sequence of the visited
    tickers. *)
Lemma assembled_tickers_sublist (data : DataFrame) :
  sublist (ticker <$> assembled data) (tickers data).
Proof.
  unfold assembled. induction (tickers data) as [|t ts IH]; simpl; [done|].
  destruct (record_of data t) as [r|] eqn:E; simpl.
  - rewrite (record_of_ticker _ _ _ E). by constructor.
  - by constructor.
Qed.

(** ** C6: the 60-period average at the last position *)



(** ** Signals of an included ticker *)




(** The mean at the [k]-th position from the end is defined when the
    window fits before it, and undefined on a series shorter than the
    window. *)
Lemma iloc_rolling_mean_defined (w : nat) (xs : list Q) (k : nat) :
  (0 < w)%nat → (1 ≤ k)%nat → (w + k ≤ S (length xs))%nat →
  ∃ m, iloc_neg (rolling_mean w xs) k = Ok (Fin m)
     ∧ (m == arith_mean (last_n w (take (S (length xs - k)) xs)))%Q.
Proof.
  intros Hw Hk Hlen.
  destruct (rolling_mean_defined w xs (length xs - k)) as (m & Hm & Hmean);
    [lia..|].
  exists m. split; [|done].
  apply iloc_neg_Ok; [done|]. rewrite length_rolling_mean. split; [lia|done].
Qed.

Lemma iloc_rolling_mean_undefined (w : nat) (xs : list Q) :
  (1 ≤ length xs < w)%nat → iloc_neg (rolling_mean w xs) 1 = Ok NaN.
Proof.
  intros Hlen. apply iloc_neg_Ok; [done|]. rewrite length_rolling_mean.
  split; [lia|]. apply rolling_mean_undefined; lia.
Qed.

Lemma golden_cross_of_eq (ma5 ma20 : list float64) (a b c d : float64) :
  iloc_neg ma5 2 = Ok a → iloc_neg ma20 2 = Ok b →
  iloc_neg ma5 1 = Ok c → iloc_neg ma20 1 = Ok d →
  golden_cross_of ma5 ma20 = Ok (flt a b && fgt c d).
Proof.
  intros Ha Hb Hc Hd. unfold golden_cross_of. rewrite Ha, Hb. simpl.
  destruct (flt a b); [|done]. rewrite Hc, Hd. done.
Qed.

(** ** C3: the crossover flag *)


(** ** C4: the volume-spike flag *)


(** ** C5: distance to the 60-period average *)






(** ** C2 and C10: the minimum-history gate *)

Lemma vol_spike_of_Ok (v : Series) :
  (1 ≤ length v)%nat →
  ∃ b, vol_spike_of (SeriesOf v) = Ok b ∧ ((length v < 20)%nat → b = false).
Proof.
  intros Hv. unfold vol_spike_of.
  destruct (iloc_neg_in_range v.*2 1) as (x & Hx & _);
    [rewrite length_fmap; lia|].
  destruct (Nat.lt_ge_cases (length v) 20) as [Hlt|Hge].
  - rewrite iloc_rolling_mean_undefined by (rewrite length_fmap; lia).
    simpl. eauto.
  - destruct (iloc_rolling_mean_defined 20 v.*2 1) as (q & Hq & _);
      [lia|lia|rewrite length_fmap; lia|].
    rewrite Hq. simpl. rewrite Hx. simpl.
    eexists. split; [done|lia].
Qed.

(** With sixty closes and one volume the [try] block runs to its end. *)
Lemma signals_Ok (t : string) (s v : Series) :
  (60 ≤ length s)%nat → (1 ≤ length v)%nat →
  ∃ r, signals t (SeriesOf s) (SeriesOf v) = Ok (Some r)
     ∧ ((length v < 20)%nat → vol_spike_vs_20d r = false).
Proof.
  intros Hs Hv. unfold signals. simpl len.
  destruct (Nat.ltb_spec (length s) 60) as [|_]; [lia|].
  assert (length s.*2 = length s) as Hl by apply length_fmap.
  destruct (iloc_neg_in_range s.*1 1) as (d & Hd & _);
    [rewrite length_fmap; lia|].
  destruct (iloc_neg_in_range s.*2 1) as (p & Hp & _); [lia|].
  destruct (iloc_neg_in_range s.*2 2) as (p' & Hp' & _); [lia|].
  destruct (iloc_rolling_mean_defined 5 s.*2 2) as (a & Ha & _); [lia..|].
  destruct (iloc_rolling_mean_defined 20 s.*2 2) as (b & Hb & _); [lia..|].
  destruct (iloc_rolling_mean_defined 5 s.*2 1) as (c & Hc & _); [lia..|].
  destruct (iloc_rolling_mean_defined 20 s.*2 1) as (e & He & _); [lia..|].
  destruct (iloc_rolling_mean_defined 60 s.*2 1) as (m & Hm & _); [lia..|].
  destruct (vol_spike_of_Ok v Hv) as (vs & Hvs & Hfalse).
  rewrite Hd, Hp. cbn [mbind result_bind].
  unfold day_change_of. rewrite Hl.
  destruct (Nat.ltb_spec 1 (length s)) as [_|]; [|lia].
  rewrite Hp, Hp'. cbn [mbind result_bind mret result_ret].
  rewrite (golden_cross_of_eq _ _ _ _ _ _ Ha Hb Hc He).
  cbn [mbind result_bind]. rewrite Hvs. cbn [mbind result_bind].
  unfold above_ma60_of. rewrite Hm. cbn [mbind result_bind isnan negb mret result_ret].
  eexists. split; [done|]. done.
Qed.

(** C2 (as the code has it). For every ticker whose columns are found: if
    its filtered Close series has fewer than 60 observations the loop
    leaves the rows as they are and prints the insufficient-data
    diagnostic (no exception leaves the iteration); if it has 60 or more
    (so also with exactly 60) and the filtered Volume series is not empty,
    the loop appends the ticker's record. *)
Theorem C2_minimum_history_gate
    (data : DataFrame) (t : string) (close vol : Selected)
    (st : list Row * list diag) :
  select_columns data t = Ok (close, vol) →
  ((len close < 60)%nat →
     loop_body data st t = (st.1, st.2 ++ [InsufficientData t]))
  ∧ (∀ s v, close = SeriesOf s → vol = SeriesOf v →
       (60 ≤ length s)%nat → (1 ≤ length v)%nat →
       ∃ r, ticker r = t ∧ loop_body data st t = (st.1 ++ [r], st.2)).
Proof.
  intros Hsel. unfold loop_body, try_ticker. rewrite Hsel. simpl. split.
  - intros Hlt. unfold signals.
    destruct (Nat.ltb_spec (len close) 60); [done|lia].
  - intros s v -> -> Hs Hv.
    destruct (signals_Ok t s v Hs Hv) as (r & Hr & _).
    rewrite Hr. exists r. split; [|done]. by eapply signals_ticker.
Qed.


(** ** C1: the ranking *)

Lemma bool_desc_Lt (a b : bool) : bool_desc a b = Lt → flag_before a b.
Proof. by destruct a, b. Qed.

Lemma bool_desc_Eq (a b : bool) : bool_desc a b = Eq → a = b.
Proof. by destruct a, b. Qed.

Lemma num_desc_Lt (a b : option float64) : num_desc a b = Lt → cell_before a b.
Proof.
  unfold cell_before, holds, absent.
  destruct a as [[p| | |]|], b as [[q| | |]|]; simpl; try done; intros H;
    (eexists; split; [split; [reflexivity|done]|]);
    first [ left; by eauto
          | right; eexists; split; [split; [reflexivity|done]|]; simpl;
            first [ done | by apply Qlt_alt ] ].
Qed.

Lemma num_desc_Eq (a b : option float64) : num_desc a b = Eq → cell_tied a b.
Proof.
  unfold cell_tied, holds, absent.
  destruct a as [[p| | |]|], b as [[q| | |]|]; simpl; try done; intros H;
    first [ left; by eauto
          | right; do 2 eexists;
            split; [split; [reflexivity|done]|];
            split; [split; [reflexivity|done]|]; simpl;
            first [ done | symmetry; by apply Qeq_alt ] ].
Qed.

Lemma num_desc_not_Gt (a b : option float64) :
  num_desc a b ≠ Gt → cell_before a b ∨ cell_tied a b.
Proof.
  destruct (num_desc a b) eqn:E; [| |done]; intros _.
  - right. by apply num_desc_Eq.
  - left. by apply num_desc_Lt.
Qed.

Lemma rank_compare_no_later (a b : Row) :
  rank_compare a b ≠ Gt → ranks_no_later a b.
Proof.
  unfold rank_compare, ranks_no_later, lex.
  destruct (bool_desc (golden_cross_5_20 a) (golden_cross_5_20 b)) eqn:E1;
    [|left; by apply bool_desc_Lt|done].
  apply bool_desc_Eq in E1. intros H. right. split; [done|].
  destruct (bool_desc (vol_spike_vs_20d a) (vol_spike_vs_20d b)) eqn:E2;
    [|left; by apply bool_desc_Lt|done].
  apply bool_desc_Eq in E2. right. split; [done|].
  destruct (num_desc (above_ma60_pct a) (above_ma60_pct b)) eqn:E3;
    [|left; by apply num_desc_Lt|done].
  right. split; [by apply num_desc_Eq|].
  by apply num_desc_not_Gt.
Qed.

Lemma rank_ltb_spec (a b : Row) :
  rank_ltb a b = true ↔ rank_compare a b = Lt.
Proof. unfold rank_ltb. by destruct (rank_compare a b). Qed.

Lemma sort_values_perm (rows : list Row) : sort_values rows ≡ₚ rows.
Proof. apply stable_sort_perm. Qed.

Lemma sort_values_sorted (rows : list Row) :
  StronglySorted ranks_no_later (sort_values rows).
Proof.
  eapply StronglySorted_mono; [apply rank_compare_no_later|].
  apply (stable_sort_sorted rank_compare rank_ltb rank_ltb_spec).
Qed.

(** C1. The ranked output holds the assembled records, ordered so that
    each record may stand before every later one under the descending
    lexicographic order on (goldenCross5x20, volumeSpike, aboveLongMAPct,
    dayChangePct): true before false, larger numbers first, absent
    numeric fields after all present ones. *)
Theorem C1_ranked_by_descending_key
    (data : DataFrame) (out : list diag) (df : list Row) :
  (compute_signals data out).2 = Ok df →
  df ≡ₚ (foldl (loop_body data) ([], out) (sorted (py_set (universe data)))).1
  ∧ StronglySorted ranks_no_later df.
Proof.
  rewrite compute_signals_eq, foldl_loop_body. simpl.
  fold (tickers data). fold (assembled data).
  destruct (assembled data) as [|r rows] eqn:E; [done|].
  intros [= <-]. split.
  - apply (sort_values_perm (r :: rows)).
  - apply (sort_values_sorted (r :: rows)).
Qed.

(** ** C7, C8, C9: the run as a whole *)

Lemma elem_of_assembled (data : DataFrame) (r : Row) :
  r ∈ assembled data ↔ ∃ t, t ∈ universe data ∧ try_ticker data t = Ok (Some r).
Proof.
  unfold assembled. rewrite list_elem_of_omap. unfold tickers, record_of.
  split.
  - intros (t & Ht & Hr). exists t. rewrite elem_of_sorted_py_set in Ht.
    split; [done|].
    destruct (try_ticker data t) as [[r'|]|]; [|done..]. by injection Hr as ->.
  - intros (t & Ht & Hr). exists t. rewrite elem_of_sorted_py_set.
    split; [done|]. by rewrite Hr.
Qed.

Lemma assembled_nil (data : DataFrame) :
  assembled data = [] ↔
  ∀ t, t ∈ universe data → ∀ r, try_ticker data t ≠ Ok (Some r).
Proof.
  split.
  - intros E t Ht r Hr.
    assert (r ∈ assembled data) as Hin by (apply elem_of_assembled; eauto).
    rewrite E in Hin. by apply not_elem_of_nil in Hin.
  - intros H. destruct (assembled data) as [|r rows] eqn:E; [done|].
    assert (r ∈ assembled data) as Hin by (rewrite E; left).
    apply elem_of_assembled in Hin as (t & Ht & Hr). by destruct (H t Ht r).
Qed.

Lemma compute_signals_result (data : DataFrame) (out : list diag) :
  (compute_signals data out).2
  = match assembled data with
    | [] => Raise RuntimeError
    | _ :: _ => Ok (sort_values (assembled data))
    end.
Proof. rewrite compute_signals_eq. by destruct (assembled data). Qed.

Lemma compute_signals_log (data : DataFrame) (out : list diag) :
  (compute_signals data out).1 = out ++ omap (diag_of data) (tickers data).
Proof. by rewrite compute_signals_eq. Qed.

(** C7. The run raises iff no ticker of the universe yields a record, and
    the only exception it raises is the "no usable output" one.  An
    exception raised while a ticker is processed is caught and printed,
    that ticker has no record in the output, and the output holds the
    record of every ticker that yields one. *)
Theorem C7_empty_result_is_the_sole_error (data : DataFrame) (out : list diag) :
  (∀ e, (compute_signals data out).2 = Raise e → e = RuntimeError)
  ∧ ((compute_signals data out).2 = Raise RuntimeError
     ↔ ∀ t, t ∈ universe data → ∀ r, try_ticker data t ≠ Ok (Some r))
  ∧ (∀ t e, t ∈ universe data → try_ticker data t = Raise e →
       ComputeFailed t e ∈ (compute_signals data out).1
       ∧ ∀ df r, (compute_signals data out).2 = Ok df → r ∈ df → ticker r ≠ t)
  ∧ (∀ df, (compute_signals data out).2 = Ok df →
       ∀ r, r ∈ df ↔ ∃ t, t ∈ universe data ∧ try_ticker data t = Ok (Some r)).
Proof.
  rewrite compute_signals_result, compute_signals_log.
  assert (∀ df, match assembled data with
                | [] => Raise RuntimeError
                | _ :: _ => Ok (sort_values (assembled data))
                end = Ok df →
                ∀ r, r ∈ df ↔ r ∈ assembled data) as Hdf.
  { intros df. destruct (assembled data) as [|r0 rows]; [done|].
    intros H r. assert (df = sort_values (r0 :: rows)) as -> by congruence.
    by rewrite sort_values_perm. }
  split; [|split; [|split]].
  - intros e. by destruct (assembled data); intros [= <-].
  - rewrite <- assembled_nil. by destruct (assembled data).
  - intros t e Ht He. split.
    + apply elem_of_app. right. apply list_elem_of_omap. exists t. split.
      * by apply elem_of_sorted_py_set.
      * unfold diag_of. by rewrite He.
    + intros df r Hok Hr Heqt. apply (Hdf df Hok) in Hr.
      apply elem_of_assembled in Hr as (t' & _ & Hr).
      pose proof (try_ticker_ticker _ _ _ Hr) as Ht'.
      rewrite Heqt in Ht'. subst t'. congruence.
  - intros df Hok r. rewrite (Hdf df Hok). apply elem_of_assembled.
Qed.


(** C9. The loop visits the tickers of the universe once each, in strictly
    ascending order; the rows it assembles are in strictly ascending order
    of ticker, and no two records of the ranked output have the same
    ticker. *)
Theorem C9_unique_tickers_alphabetical_assembly
    (data : DataFrame) (out : list diag) (df : list Row) :
  (compute_signals data out).2 = Ok df →
  NoDup (ticker <$> df)
  ∧ ascending (sorted (py_set (universe data)))
  ∧ (∀ t, t ∈ sorted (py_set (universe data)) ↔ t ∈ universe data)
  ∧ ascending
      (ticker <$> (foldl (loop_body data) ([], out)
                         (sorted (py_set (universe data)))).1)
  ∧ df = sort_values (foldl (loop_body data) ([], out)
                            (sorted (py_set (universe data)))).1.
Proof.
  rewrite compute_signals_result, foldl_loop_body. cbn [fst snd app].
  fold (tickers data). fold (assembled data). intros Hdf.
  assert (ascending (ticker <$> assembled data)) as Hasc.
  { eapply ascending_sublist; [apply assembled_tickers_sublist|].
    apply sorted_py_set_ascending. }
  assert (df = sort_values (assembled data)) as ->.
  { destruct (assembled data); [done|]. congruence. }
  split; [|split; [|split; [|split]]].
  - rewrite sort_values_perm. by apply ascending_NoDup.
  - apply sorted_py_set_ascending.
  - intros t. apply elem_of_sorted_py_set.
  - done.
  - done.
Qed.

Lemma C1_witness :
  (compute_signals Sample.frame []).2 = Ok SampleRows.ranked
  ∧ (SampleRows.ranked
       ≡ₚ (foldl (loop_body Sample.frame) ([], [])
                 (sorted (py_set (universe Sample.frame)))).1
     ∧ StronglySorted ranks_no_later SampleRows.ranked).
Proof.
  split.
  - vm_compute. reflexivity.
  - apply (C1_ranked_by_descending_key Sample.frame [] SampleRows.ranked).
    vm_compute. reflexivity.
Defined.

Lemma C2_witness :
  select_columns Sample.frame "SHORT"
  = Ok (Sample.close "SHORT", Sample.vol "SHORT")
  ∧ (((len (Sample.close "SHORT") < 60)%nat →
      loop_body Sample.frame SampleRows.start "SHORT"
      = (SampleRows.start.1, SampleRows.start.2 ++ [InsufficientData "SHORT"]))
     ∧ (∀ s v, Sample.close "SHORT" = SeriesOf s → Sample.vol "SHORT" = SeriesOf v →
          (60 ≤ length s)%nat → (1 ≤ length v)%nat →
          ∃ r, ticker r = "SHORT"
             ∧ loop_body Sample.frame SampleRows.start "SHORT"
               = (SampleRows.start.1 ++ [r], SampleRows.start.2))).
Proof.
  split.
  - vm_compute. reflexivity.
  - apply (C2_minimum_history_gate Sample.frame "SHORT"
             (Sample.close "SHORT") (Sample.vol "SHORT") SampleRows.start).
    vm_compute. reflexivity.
Defined.

(** C2 as stated fails on the sample frame.  [NOVOL] has exactly sixty
    Close values and is not included: its Volume series is empty,
    [vol20.iloc[-1]] raises, and the exception is caught and printed.
    Counting instead the days on which Close and Volume are both present,
    [THIN] has three and is included. *)
Lemma C2_counterexample :
  (len (Sample.close "NOVOL") = 60%nat
   ∧ Sample.vol "NOVOL" = SeriesOf []
   ∧ try_ticker Sample.frame "NOVOL" = Raise IndexError
   ∧ loop_body Sample.frame SampleRows.start "NOVOL"
     = ([], [ComputeFailed "NOVOL" IndexError]))
  ∧ (clean_observations Sample.thin_close Sample.thin_volume = 3%nat
     ∧ try_ticker Sample.frame "THIN" = Ok (Some SampleRows.thin)).
Proof. vm_compute. done. Qed.





Lemma C9_witness :
  (compute_signals Sample.frame []).2 = Ok SampleRows.ranked
  ∧ (NoDup (ticker <$> SampleRows.ranked)
     ∧ ascending (sorted (py_set (universe Sample.frame)))
     ∧ (∀ t, t ∈ sorted (py_set (universe Sample.frame))
             ↔ t ∈ universe Sample.frame)
     ∧ ascending
         (ticker <$> (foldl (loop_body Sample.frame) ([], [])
                            (sorted (py_set (universe Sample.frame)))).1)
     ∧ SampleRows.ranked
       = sort_values (foldl (loop_body Sample.frame) ([], [])
                            (sorted (py_set (universe Sample.frame)))).1).
Proof.
  split.
  - vm_compute. reflexivity.
  - apply (C9_unique_tickers_alphabetical_assembly Sample.frame [] SampleRows.ranked).
    vm_compute. reflexivity.
Defined.

(** * Further properties of the engine *)

(** ** Rounding *)

Lemma round_half_even_proper (p q : Q) :
  (p == q)%Q → round_half_even p = round_half_even q.
Proof.
  intros H. unfold round_half_even.
  rewrite (Qfloor_comp p q H).
  assert ((p - inject_Z (Qfloor q) ?= 1 # 2) = (q - inject_Z (Qfloor q) ?= 1 # 2))%Q
    as -> by (by rewrite H).
  done.
Qed.

Lemma round_half_even_Z (z : Z) : round_half_even (inject_Z z) = z.
Proof.
  unfold round_half_even. rewrite Qfloor_Z.
  assert ((inject_Z z - inject_Z z ?= 1 # 2)%Q = Lt) as ->; [|done].
  rewrite <- Qlt_alt. generalize (inject_Z z). intros x. lra.
Qed.

Lemma round_half_even_near (q : Q) :
  (- (1 # 2) <= inject_Z (round_half_even q) - q <= 1 # 2)%Q.
Proof.
  unfold round_half_even.
  pose proof (Qfloor_le q) as Hlo. pose proof (Qlt_floor q) as Hhi.
  rewrite inject_Z_plus in Hhi. change (inject_Z 1) with 1%Q in Hhi.
  destruct (q - inject_Z (Qfloor q) ?= 1 # 2)%Q eqn:E.
  - rewrite <- Qeq_alt in E.
    destruct (Z.even (Qfloor q)); rewrite ?inject_Z_plus;
      change (inject_Z 1) with 1%Q;
      revert Hlo Hhi E; generalize (inject_Z (Qfloor q)); intros f; lra.
  - rewrite <- Qlt_alt in E.
    revert Hlo Hhi E; generalize (inject_Z (Qfloor q)); intros f; lra.
  - rewrite <- Qgt_alt in E. rewrite inject_Z_plus. change (inject_Z 1) with 1%Q.
    revert Hlo Hhi E; generalize (inject_Z (Qfloor q)); intros f; lra.
Qed.

Lemma pow10_pos (n : nat) : (0 < inject_Z (10 ^ Z.of_nat n))%Q.
Proof.
  change 0%Q with (inject_Z 0). rewrite <- Zlt_Qlt.
  apply Z.pow_pos_nonneg; lia.
Qed.


(** Rounding a rounded value changes nothing. *)
Lemma Qround_nd_idem (n : nat) (q : Q) :
  Qround_nd n (Qround_nd n q) = Qround_nd n q.
Proof.
  unfold Qround_nd at 1 3.
  rewrite (round_half_even_proper _ (inject_Z (round_half_even (q * inject_Z (10 ^ Z.of_nat n))))).
  - by rewrite round_half_even_Z.
  - unfold Qround_nd. pose proof (pow10_pos n). field. lra.
Qed.

Lemma py_round_idem (x : float64) (n : nat) :
  py_round (py_round x n) n = py_round x n.
Proof. destruct x; simpl; [|done..]. by rewrite Qround_nd_idem. Qed.

(** A rounded value is within half a unit of the last kept decimal. *)
Lemma Qround_nd_near (n : nat) (q : Q) :
  (Qabs (Qround_nd n q - q) <= 1 / (2 * inject_Z (10 ^ Z.of_nat n)))%Q.
Proof.
  unfold Qround_nd.
  pose proof (pow10_pos n) as Hs.
  pose proof (round_half_even_near (q * inject_Z (10 ^ Z.of_nat n))) as [Hlo Hhi].
  set (s := inject_Z (10 ^ Z.of_nat n)) in *.
  set (r := inject_Z (round_half_even (q * s))) in *.
  assert (r / s - q == (r - q * s) / s)%Q as -> by (field; lra).
  assert (1 / (2 * s) == (1 # 2) / s)%Q as -> by (field; lra).
  apply Qabs_Qle_condition. split.
  - assert (- ((1 # 2) / s) == (- (1 # 2)) / s)%Q as -> by (field; lra).
    apply Qmult_le_compat_r; [done|]. apply Qlt_le_weak, Qinv_lt_0_compat. done.
  - apply Qmult_le_compat_r; [done|]. apply Qlt_le_weak, Qinv_lt_0_compat. done.
Qed.

(** ** Day change, price and date of a record *)

Lemma iloc_neg_last {A} (l : list A) (x : A) :
  iloc_neg l 1 = Ok x ↔ last l = Some x.
Proof.
  rewrite iloc_neg_Ok by done. rewrite last_lookup. split.
  - intros [Hlen Hl]. by replace (pred (length l)) with (length l - 1)%nat by lia.
  - intros Hl. assert (length l ≠ 0%nat) as Hne.
    { destruct l; [by simpl in Hl|simpl; lia]. }
    split; [lia|]. by replace (length l - 1)%nat with (pred (length l)) by lia.
Qed.

(** The last element that a filtering map keeps. *)
Lemma last_omap {A B} (f : A → option B) (l : list A) (y : B) :
  last (omap f l) = Some y →
  ∃ i x, l !! i = Some x ∧ f x = Some y
       ∧ ∀ j x', (i < j)%nat → l !! j = Some x' → f x' = None.
Proof.
  induction l as [|a l IH]; [done|].
  change (omap f (a :: l))
    with (match f a with Some b => b :: omap f l | None => omap f l end).
  destruct (omap f l) as [|b bs] eqn:E.
  - destruct (f a) as [b|] eqn:Ea; [|done]. simpl. intros [= ->].
    exists 0%nat, a. split; [done|]. split; [done|].
    intros [|j] x' Hj Hx'; [lia|]. simpl in Hx'.
    destruct (f x') as [b'|] eqn:Ex'; [|done].
    assert (b' ∈ omap f l) as Hin.
    { apply list_elem_of_omap. exists x'. split; [|done].
      by eapply list_elem_of_lookup_2. }
    rewrite E in Hin. by apply not_elem_of_nil in Hin.
  - intros Hlast.
    assert (last (b :: bs) = Some y) as Hl.
    { destruct (f a); [|done]. by rewrite last_cons_cons in Hlast. }
    destruct (IH Hl) as (i & x & Hi & Hx & Hlater).
    exists (S i), x. split; [done|]. split; [done|].
    intros [|j] x' Hj Hx'; [lia|]. apply (Hlater j); [lia|done].
Qed.

(** The price of a record is the last Close value that is present,
    rounded to 4 decimals (so within 0.00005 of it), and the date of the
    record is the index label of that observation: gaps after it are
    passed over. *)
Theorem price_and_date_of_last_present_close
    (t : string) (idx : list label) (ccol : Column) (vol : Selected) (r : Row) :
  signals t (dropna idx (OneColumn ccol)) vol = Ok (Some r) →
  ∃ i p,
    idx !! i = Some (date r)
    ∧ ccol !! i = Some (Some p)
    ∧ (∀ j d q, (i < j)%nat → idx !! j = Some d → ccol !! j ≠ Some (Some q))
    ∧ price r = Fin (Qround_nd 4 p)
    ∧ (Qabs (Qround_nd 4 p - p) <= 1 / 20000)%Q.
Proof.
  intros H. apply signals_included in H
    as (s & d & p & dchg & gc & vs & ab & [= <-] & _ & Hd & Hp & _ & _ & _ & _ & ->).
  apply iloc_neg_last in Hd. apply iloc_neg_last in Hp.
  rewrite fmap_last in Hd. rewrite fmap_last in Hp.
  destruct (last (dropna_series idx ccol)) as [[d' p']|] eqn:Hlast; [|done].
  simpl in Hd, Hp. injection Hd as ->. injection Hp as ->.
  apply last_omap in Hlast as (i & [d' o] & Hi & Hx & Hlater).
  apply lookup_zip_with_Some in Hi as (d'' & o' & [= -> ->] & Hidx & Hcol).
  destruct o' as [p'|]; [|done]. simpl in Hx. injection Hx as -> ->.
  exists i, p. cbn [date price py_round].
  split; [done|]. split; [done|]. split; [|split; [done|]].
  - intros j dj q Hj Hdj Hcj.
    assert (zip idx ccol !! j = Some (dj, Some q)) as Hz.
    { apply lookup_zip_with_Some. eauto. }
    by specialize (Hlater j _ Hj Hz).
  - apply (Qround_nd_near 4 p).
Qed.


(** Every numeric field of a record is a fixed point of the rounding that
    produced it: rounding a record again changes nothing. *)
Theorem record_fields_rounded_once
    (t : string) (close vol : Selected) (r : Row) :
  signals t close vol = Ok (Some r) →
  py_round (price r) 4 = price r
  ∧ (λ x, py_round x 2) <$> d_change_pct r = d_change_pct r
  ∧ (λ x, py_round x 2) <$> above_ma60_pct r = above_ma60_pct r.
Proof.
  intros H. apply signals_included in H
    as (s & d & p & dchg & gc & vs & ab & _ & _ & _ & _ & _ & _ & _ & _ & ->).
  cbn [price d_change_pct above_ma60_pct]. split; [|split].
  - apply py_round_idem.
  - destruct dchg; simpl; by rewrite ?Qround_nd_idem.
  - destruct ab; simpl; by rewrite ?Qround_nd_idem.
Qed.

(** ** Ties keep the order of the loop *)

Section StableSortTies.
Context {A : Type} (c : A → A → comparison) `{!CmpOrder c}.
Context (ltb : A → A → bool).
Hypothesis ltb_spec : ∀ a b, ltb a b = true ↔ c a b = Lt.
Context (S : A → A → Prop).

Lemma insert_stable_ties (x : A) (l : list A) :
  Forall (S x) l →
  StronglySorted (λ a b, c a b = Lt ∨ c a b = Eq ∧ S a b) l →
  StronglySorted (λ a b, c a b = Lt ∨ c a b = Eq ∧ S a b) (insert_stable ltb x l).
Proof.
  intros HS Hl. induction Hl as [|y l Hs IH Hy]; simpl.
  - repeat constructor.
  - apply Forall_cons in HS as [HSy HS].
    destruct (ltb y x) eqn:E.
    + apply ltb_spec in E. constructor; [by apply IH|].
      rewrite insert_stable_perm. constructor; [by left|done].
    + assert (c x y ≠ Gt) as Hxy.
      { rewrite (cmp_antisym (c:=c)). intros H.
        assert (c y x = Lt) as H' by (destruct (c y x); done).
        apply ltb_spec in H'. congruence. }
      assert (∀ z, c x z ≠ Gt → S x z → c x z = Lt ∨ c x z = Eq ∧ S x z) as Hcase.
      { intros z Hz HSz. destruct (c x z); [right|left|]; done. }
      constructor; [by constructor|].
      constructor; [by apply Hcase|].
      apply Forall_forall. intros z Hz.
      apply Hcase; [|by eapply Forall_forall in HS].
      apply (cmp_not_gt_trans c x y z Hxy).
      eapply Forall_forall in Hy; [|exact Hz].
      destruct Hy as [->|[-> _]]; done.
Qed.

Lemma stable_sort_ties (l : list A) :
  StronglySorted S l →
  StronglySorted (λ a b, c a b = Lt ∨ c a b = Eq ∧ S a b) (stable_sort ltb l).
Proof.
  induction 1 as [|x l Hs IH Hx]; simpl; [constructor|].
  apply insert_stable_ties; [|done].
  by rewrite (stable_sort_perm ltb l).
Qed.
End StableSortTies.

Lemma StronglySorted_fmap_inv {A B} (f : A → B) (R : B → B → Prop) (l : list A) :
  StronglySorted R (f <$> l) → StronglySorted (λ a b, R (f a) (f b)) l.
Proof.
  induction l as [|x l IH]; simpl; intros H; [constructor|].
  apply StronglySorted_inv in H as [Hs Hx].
  constructor; [by apply IH|].
  apply Forall_forall. intros y Hy.
  eapply Forall_forall in Hx; [exact Hx|]. by apply list_elem_of_fmap_2.
Qed.

Lemma StronglySorted_lookup_lt {A} (R : A → A → Prop) (l : list A) :
  StronglySorted R l →
  ∀ i j a b, (i < j)%nat → l !! i = Some a → l !! j = Some b → R a b.
Proof.
  induction 1 as [|x l Hs IH Hx]; intros i j a b Hij Hi Hj; [done|].
  destruct j as [|j]; [lia|]. simpl in Hj.
  destruct i as [|i]; simpl in Hi.
  - injection Hi as ->. eapply Forall_forall in Hx; [exact Hx|].
    by eapply list_elem_of_lookup_2.
  - apply (IH i j); [lia|done..].
Qed.

(** Of two records of the ranked output, the earlier one ranks strictly
    before the later one, or they tie on all four keys and the earlier
    one has the smaller ticker: ties are in ascending order of ticker. *)
Theorem ties_in_ascending_ticker_order
    (data : DataFrame) (out : list diag) (df : list Row) :
  (compute_signals data out).2 = Ok df →
  ∀ i j a b, (i < j)%nat → df !! i = Some a → df !! j = Some b →
    rank_compare a b = Lt
    ∨ rank_compare a b = Eq ∧ String.compare (ticker a) (ticker b) = Lt.
Proof.
  rewrite compute_signals_result. intros Hdf.
  assert (df = sort_values (assembled data)) as ->.
  { destruct (assembled data); [done|]. congruence. }
  apply (StronglySorted_lookup_lt
           (λ a b, rank_compare a b = Lt
                   ∨ rank_compare a b = Eq
                     ∧ String.compare (ticker a) (ticker b) = Lt)).
  apply (stable_sort_ties rank_compare rank_ltb rank_ltb_spec).
  apply (StronglySorted_fmap_inv ticker (λ s1 s2, String.compare s1 s2 = Lt)).
  eapply ascending_sublist; [apply assembled_tickers_sublist|].
  apply sorted_py_set_ascending.
Qed.

Lemma StronglySorted_sublist {A} (R : A → A → Prop) (l k : list A) :
  sublist l k → StronglySorted R k → StronglySorted R l.
Proof.
  intros Hsub Hk. revert l Hsub.
  induction Hk as [|x k Hs IH Hx]; intros l Hsub.
  - apply sublist_nil_r in Hsub. subst. constructor.
  - apply sublist_cons_r in Hsub as [Hsub|(l' & -> & Hsub)]; [by apply IH|].
    constructor; [by apply IH|].
    apply Forall_forall. intros y Hy.
    eapply Forall_forall in Hx; [exact Hx|]. by eapply elem_of_sublist.
Qed.

Lemma StronglySorted_mono_on {A} (P : A → Prop) (R S : A → A → Prop) (l : list A) :
  Forall P l → (∀ a b, P a → P b → R a b → S a b) →
  StronglySorted R l → StronglySorted S l.
Proof.
  intros HP HRS Hs. induction Hs as [|x l Hs IH Hx]; [constructor|].
  apply Forall_cons in HP as [HPx HP].
  constructor; [by apply IH|].
  apply Forall_forall. intros y Hy.
  apply HRS; [done|by eapply Forall_forall in HP|by eapply Forall_forall in Hx].
Qed.

(** A list in which no element without the flag precedes one with it is
    its flagged elements followed by the others. *)
Lemma flag_groups {A} (f : A → bool) (l : list A) :
  StronglySorted (λ a b, f b = true → f a = true) l →
  l = filter (λ x, f x = true) l ++ filter (λ x, f x = false) l.
Proof.
  induction 1 as [|x l Hs IH Hx]; [done|].
  rewrite !filter_cons. destruct (f x) eqn:E.
  - rewrite decide_True by done. rewrite decide_False by done.
    simpl. by rewrite <- IH.
  - rewrite decide_False by done. rewrite decide_True by done.
    assert (filter (λ y, f y = true) l = []) as ->.
    { clear -Hx. induction l as [|y l IHl]; [done|].
      apply Forall_cons in Hx as [Hy Hx]. rewrite filter_cons.
      destruct (f y) eqn:Ey; [by specialize (Hy eq_refl)|].
      rewrite decide_False by done. by apply IHl. }
    assert (filter (λ y, f y = false) l = l) as ->; [|done].
    clear -Hx. induction l as [|y l IHl]; [done|].
    apply Forall_cons in Hx as [Hy Hx]. rewrite filter_cons.
    destruct (f y) eqn:Ey; [by specialize (Hy eq_refl)|].
    rewrite decide_True by done. by rewrite IHl.
Qed.

(** The ranked output lists the records with a golden cross first, then
    the others, and within each of the two groups those with a volume
    spike first. *)
Theorem golden_cross_then_volume_spike_groups
    (data : DataFrame) (out : list diag) (df : list Row) :
  (compute_signals data out).2 = Ok df →
  df = filter (λ r, golden_cross_5_20 r = true) df
       ++ filter (λ r, golden_cross_5_20 r = false) df
  ∧ ∀ g, filter (λ r, golden_cross_5_20 r = g) df
         = filter (λ r, vol_spike_vs_20d r = true)
                  (filter (λ r, golden_cross_5_20 r = g) df)
           ++ filter (λ r, vol_spike_vs_20d r = false)
                     (filter (λ r, golden_cross_5_20 r = g) df).
Proof.
  rewrite compute_signals_result. intros Hdf.
  assert (StronglySorted ranks_no_later df) as Hs.
  { assert (df = sort_values (assembled data)) as ->.
    { destruct (assembled data); [done|]. congruence. }
    apply sort_values_sorted. }
  clear Hdf. split.
  - apply (flag_groups golden_cross_5_20).
    revert Hs. apply StronglySorted_mono. intros a b Hab Hb.
    destruct Hab as [[-> _]|[Heq _]]; congruence.
  - intros g. apply (flag_groups vol_spike_vs_20d).
    apply (StronglySorted_mono_on (λ r, golden_cross_5_20 r = g) ranks_no_later).
    + apply Forall_forall. intros r Hr. by apply list_elem_of_filter in Hr as [Hr _].
    + intros a b Ha Hb Hab Hvb.
      destruct Hab as [[Ha' Hb']|[_ [[-> _]|[Heq _]]]]; congruence.
    + eapply StronglySorted_sublist; [apply sublist_filter|done].
Qed.

(** ** Every ticker is accounted for *)

Lemma length_records_diags (data : DataFrame) (ts : list string) :
  (length (omap (record_of data) ts) + length (omap (diag_of data) ts))%nat
  = length ts.
Proof.
  induction ts as [|t ts IH]; [done|].
  change (omap (record_of data) (t :: ts))
    with (match record_of data t with
          | Some r => r :: omap (record_of data) ts
          | None => omap (record_of data) ts
          end).
  change (omap (diag_of data) (t :: ts))
    with (match diag_of data t with
          | Some d => d :: omap (diag_of data) ts
          | None => omap (diag_of data) ts
          end).
  unfold record_of at 1, diag_of at 1.
  destruct (try_ticker data t) as [[r|]|e]; simpl; lia.
Qed.

Lemma length_sorted (l : list string) : length (sorted l) = length l.
Proof. unfold sorted. by rewrite (stable_sort_perm String.ltb l). Qed.

Lemma elem_of_diags (data : DataFrame) (d : diag) :
  d ∈ omap (diag_of data) (tickers data)
  ↔ ∃ t, t ∈ universe data ∧ diag_of data t = Some d.
Proof.
  rewrite list_elem_of_omap. unfold tickers.
  split; intros (t & Ht & Hd); exists t;
    (split; [by apply elem_of_sorted_py_set|done]).
Qed.

(** No ticker is dropped silently.  A run prints one diagnostic for each
    ticker of the universe that yields no record and nothing else: the
    records of the output and the diagnostics printed add up to the number
    of distinct tickers, a skipped ticker is reported as such and a failed
    one with the exception it raised. *)
Theorem every_ticker_has_a_record_or_a_diagnostic
    (data : DataFrame) (out : list diag) :
  ∃ news,
    (compute_signals data out).1 = out ++ news
    ∧ (length news
       + match (compute_signals data out).2 with
         | Ok df => length df
         | Raise _ => 0
         end)%nat = length (remove_dups (universe data))
    ∧ (∀ t, t ∈ universe data →
         (∃ r, try_ticker data t = Ok (Some r))
         ∨ InsufficientData t ∈ news
         ∨ ∃ e, ComputeFailed t e ∈ news)
    ∧ (∀ t, InsufficientData t ∈ news →
         t ∈ universe data ∧ try_ticker data t = Ok None)
    ∧ (∀ t e, ComputeFailed t e ∈ news →
         t ∈ universe data ∧ try_ticker data t = Raise e).
Proof.
  exists (omap (diag_of data) (tickers data)).
  rewrite compute_signals_log, compute_signals_result.
  split; [done|]. split; [|split; [|split]].
  - pose proof (length_records_diags data (tickers data)) as Hlen.
    fold (assembled data) in Hlen.
    assert (length (tickers data) = length (remove_dups (universe data))) as Hn
      by apply length_sorted.
    rewrite <- Hn, <- Hlen.
    destruct (assembled data) as [|r rows] eqn:E; [simpl; lia|].
    rewrite <- E. unfold sort_values.
    rewrite (stable_sort_perm rank_ltb (assembled data)). lia.
  - intros t Ht.
    destruct (try_ticker data t) as [[r|]|e] eqn:E.
    + left. eauto.
    + right. left. apply list_elem_of_omap. exists t.
      split; [by apply elem_of_sorted_py_set|]. unfold diag_of. by rewrite E.
    + right. right. exists e. apply list_elem_of_omap. exists t.
      split; [by apply elem_of_sorted_py_set|]. unfold diag_of. by rewrite E.
  - intros t Hin. apply list_elem_of_omap in Hin as (t' & Ht' & Hd).
    unfold tickers in Ht'. rewrite elem_of_sorted_py_set in Ht'.
    unfold diag_of in Hd.
    destruct (try_ticker data t') as [[r|]|e] eqn:E; [done| |done].
    by injection Hd as <-.
  - intros t e Hin. apply list_elem_of_omap in Hin as (t' & Ht' & Hd).
    unfold tickers in Ht'. rewrite elem_of_sorted_py_set in Ht'.
    unfold diag_of in Hd.
    destruct (try_ticker data t') as [[r|]|e'] eqn:E; [done..|].
    by injection Hd as <- <-.
Qed.

(** ** Missing and repeated column labels *)

Lemma getitem_KeyError {K} `{EqDecision K} (cols : list (K * Column)) (key : K) :
  getitem cols key = Raise KeyError ↔ ∀ c, (key, c) ∉ cols.
Proof.
  unfold getitem.
  destruct (filter (λ c, c.1 = key) cols) as [|[k c] rest] eqn:E.
  - split; [|done]. intros _ c Hin.
    assert ((key, c) ∈ filter (λ c, c.1 = key) cols) as Hf
      by (by apply list_elem_of_filter).
    rewrite E in Hf. by apply not_elem_of_nil in Hf.
  - assert ((k, c) ∈ filter (λ c, c.1 = key) cols) as Hf by (rewrite E; left).
    apply list_elem_of_filter in Hf as [Hk Hin]. simpl in Hk. subst k.
    split.
    + simpl. by destruct rest.
    + intros H. by destruct (H c).
Qed.

Lemma getitem_Ok {K} `{EqDecision K} (cols : list (K * Column)) (key : K) (c : Column) :
  (key, c) ∈ cols → ∃ sel, getitem cols key = Ok sel.
Proof.
  intros Hin. destruct (getitem cols key) as [sel|e] eqn:E; [eauto|].
  assert (e = KeyError) as ->.
  { unfold getitem in E.
    destruct ((filter (λ c, c.1 = key) cols).*2) as [|? [|? ?]]; congruence. }
  pose proof (proj1 (getitem_KeyError cols key) E) as Hnot.
  by destruct (Hnot c).
Qed.

Lemma getitem_SubFrame {K} `{EqDecision K} (cols : list (K * Column)) (key : K) :
  (2 ≤ length (filter (λ c, c.1 = key) cols))%nat →
  ∃ cs, getitem cols key = Ok (SubFrame cs).
Proof.
  unfold getitem. intros Hlen.
  destruct (filter (λ c, c.1 = key) cols) as [|c1 [|c2 rest]];
    simpl in *; [lia..|eauto].
Qed.

Lemma elem_of_universe_multi (data : DataFrame) cols (t : string) :
  columns data = MultiIndex cols →
  t ∈ universe data ↔ ∃ c, ((t, "Close"), c) ∈ cols.
Proof.
  intros Hcols. unfold universe. rewrite Hcols.
  rewrite list_elem_of_fmap. split.
  - intros (k & -> & Hk). apply list_elem_of_fmap in Hk as ([[t f] c] & -> & Hin).
    apply list_elem_of_filter in Hin as [Hf Hin]. simpl in *. subst f. eauto.
  - intros (c & Hin). exists (t, "Close"). split; [done|].
    apply list_elem_of_fmap. exists ((t, "Close"), c). split; [done|].
    by apply list_elem_of_filter.
Qed.

(** A ticker that has a Close column and no Volume column is reported as
    failed with [KeyError], whatever the length of its history: the
    columns are looked up before the minimum-history gate. *)
Theorem missing_volume_column_is_a_KeyError
    (data : DataFrame) (out : list diag) cols (t : string) :
  columns data = MultiIndex cols →
  t ∈ universe data →
  (∀ c, ((t, "Volume"), c) ∉ cols) →
  try_ticker data t = Raise KeyError
  ∧ ComputeFailed t KeyError ∈ (compute_signals data out).1
  ∧ InsufficientData t ∉ (drop (length out) (compute_signals data out).1).
Proof.
  intros Hcols Ht Hvol.
  assert (try_ticker data t = Raise KeyError) as Htry.
  { unfold try_ticker, select_columns. rewrite Hcols.
    apply (elem_of_universe_multi data cols t Hcols) in Ht as (c & Hc).
    destruct (getitem_Ok cols (t, "Close") c Hc) as (sel & ->). simpl.
    apply (proj2 (getitem_KeyError cols (t, "Volume"))) in Hvol.
    by rewrite Hvol. }
  split; [done|].
  rewrite compute_signals_log, drop_app_length. split.
  - apply elem_of_app. right. apply elem_of_diags. exists t.
    split; [done|]. unfold diag_of. by rewrite Htry.
  - intros Hin. apply elem_of_diags in Hin as (t' & _ & Hd).
    unfold diag_of in Hd.
    destruct (try_ticker data t') as [[r|]|e] eqn:E; [done| |done].
    injection Hd as ->. congruence.
Qed.

(** A ticker whose Close label or Volume label occurs more than once in
    the frame never yields a record. *)
Theorem repeated_label_yields_no_record
    (data : DataFrame) cols (t : string) (r : Row) :
  columns data = MultiIndex cols →
  (2 ≤ length (filter (λ c, c.1 = (t, "Close")) cols))%nat
  ∨ (2 ≤ length (filter (λ c, c.1 = (t, "Volume")) cols))%nat →
  try_ticker data t ≠ Ok (Some r).
Proof.
  intros Hcols Hdup Htry.
  unfold try_ticker, select_columns in Htry. rewrite Hcols in Htry.
  apply bind_Ok in Htry as ([close vol] & Hsel & Hsig).
  apply bind_Ok in Hsel as (csel & Hc & Hsel).
  apply bind_Ok in Hsel as (vsel & Hv & [= <- <-]).
  cbn [fst snd] in Hsig.
  apply signals_included in Hsig
    as (s & d & p & dchg & gc & vs & ab & Hclose & _ & _ & _ & _ & _ & Hvs & _ & _).
  destruct Hdup as [Hdup|Hdup].
  - apply getitem_SubFrame in Hdup as (cs & Hcs).
    rewrite Hcs in Hc. injection Hc as <-. done.
  - apply getitem_SubFrame in Hdup as (cs & Hcs).
    rewrite Hcs in Hv. injection Hv as <-.
    simpl in Hvs. by destruct (iloc_neg _ 1).
Qed.

(** ** Flat frames and empty universes *)

(** On a frame with flat column labels the output, when there is one, is
    the single record of the pseudo-ticker [SINGLE]. *)
Theorem flat_frame_yields_the_single_record
    (data : DataFrame) (out : list diag) cols (df : list Row) :
  columns data = Index cols →
  (compute_signals data out).2 = Ok df →
  ∃ r, df = [r] ∧ ticker r = "SINGLE"
     ∧ try_ticker data "SINGLE" = Ok (Some r)
     ∧ (compute_signals data out).1 = out.
Proof.
  intros Hcols. rewrite compute_signals_result, compute_signals_log.
  unfold assembled, tickers, universe. rewrite Hcols.
  change (sorted (py_set ["SINGLE"])) with ["SINGLE"].
  unfold omap, list_omap, record_of, diag_of.
  destruct (try_ticker data "SINGLE") as [[r|]|e] eqn:E; [|done..].
  intros [= <-]. exists r. split; [done|].
  split; [by eapply try_ticker_ticker|]. split; [done|]. by rewrite app_nil_r.
Qed.

(** A flat frame that lacks the Close or the Volume column makes the run
    fail, after printing the [KeyError] of the pseudo-ticker. *)
Theorem flat_frame_without_close_or_volume_fails
    (data : DataFrame) (out : list diag) cols :
  columns data = Index cols →
  (∀ c, ("Close", c) ∉ cols) ∨ (∀ c, ("Volume", c) ∉ cols) →
  compute_signals data out
  = (out ++ [ComputeFailed "SINGLE" KeyError], Raise RuntimeError).
Proof.
  intros Hcols Hmiss.
  assert (try_ticker data "SINGLE" = Raise KeyError) as Htry.
  { unfold try_ticker, select_columns. rewrite Hcols.
    destruct Hmiss as [Hc|Hv].
    - apply (proj2 (getitem_KeyError cols "Close")) in Hc. by rewrite Hc.
    - apply (proj2 (getitem_KeyError cols "Volume")) in Hv.
      destruct (getitem cols "Close") as [sel|e] eqn:E; simpl.
      + by rewrite Hv.
      + f_equal. unfold getitem in E.
        destruct ((filter (λ c, c.1 = "Close") cols).*2) as [|? [|? ?]]; congruence. }
  rewrite compute_signals_eq.
  unfold assembled, tickers, universe. rewrite Hcols.
  change (sorted (py_set ["SINGLE"])) with ["SINGLE"].
  unfold omap, list_omap, record_of, diag_of. by rewrite Htry.
Qed.

(** A frame with ticker-level labels none of which is a Close label has an
    empty universe: the run fails and prints nothing. *)
Theorem no_close_label_fails_silently
    (data : DataFrame) (out : list diag) cols :
  columns data = MultiIndex cols →
  (∀ t c, ((t, "Close"), c) ∉ cols) →
  compute_signals data out = (out, Raise RuntimeError).
Proof.
  intros Hcols Hnone.
  assert (universe data = []) as Hu.
  { destruct (universe data) as [|t ts] eqn:E; [done|].
    assert (t ∈ universe data) as Ht by (rewrite E; left).
    apply (elem_of_universe_multi data cols t Hcols) in Ht as (c & Hc).
    by destruct (Hnone t c). }
  rewrite compute_signals_eq. unfold assembled, tickers. rewrite Hu.
  change (sorted (py_set [])) with (@nil string). simpl. by rewrite app_nil_r.
Qed.

(** ** Only the recent history matters *)











(** * Properties of the glue *)

(** ** Stripping, splitting and joining text *)

Lemma lstrip_head (s : str) (c : N) :
  head (lstrip s) = Some c → isspace c = false.
Proof.
  induction s as [|a s IH]; simpl; [done|].
  destruct (isspace a) eqn:E; [done|]. simpl. by intros [= <-].
Qed.

Lemma lstrip_id (s : str) :
  (∀ c, head s = Some c → isspace c = false) → lstrip s = s.
Proof. destruct s as [|a s]; simpl; [done|]. intros H. by rewrite (H a). Qed.

Lemma lstrip_suffix (s : str) : lstrip s `suffix_of` s.
Proof.
  induction s as [|a s IH]; simpl; [done|].
  destruct (isspace a); [by apply suffix_cons_r|done].
Qed.

Lemma lstrip_app (a b : str) :
  lstrip (a ++ b) = match lstrip a with
                    | [] => lstrip b
                    | _ :: _ => lstrip a ++ b
                    end.
Proof.
  induction a as [|c a IH]; simpl; [by destruct (lstrip b)|].
  destruct (isspace c); [done|]. done.
Qed.

Lemma rstrip_prefix (s : str) : rstrip s `prefix_of` s.
Proof.
  unfold rstrip. destruct (lstrip_suffix (reverse s)) as [k Hk].
  exists (reverse k).
  rewrite <- reverse_app, <- Hk. by rewrite reverse_involutive.
Qed.

Lemma rstrip_last (s : str) (c : N) :
  last (rstrip s) = Some c → isspace c = false.
Proof.
  unfold rstrip. rewrite last_reverse. apply lstrip_head.
Qed.

Lemma rstrip_id (s : str) :
  (∀ c, last s = Some c → isspace c = false) → rstrip s = s.
Proof.
  intros H. unfold rstrip. rewrite lstrip_id, reverse_involutive; [done|].
  intros c Hc. apply H. by rewrite <- head_reverse.
Qed.

Lemma rstrip_app (a b : str) :
  rstrip (a ++ b) = match rstrip b with
                    | [] => rstrip a
                    | _ :: _ => a ++ rstrip b
                    end.
Proof.
  unfold rstrip. rewrite reverse_app, lstrip_app.
  destruct (lstrip (reverse b)) as [|c k] eqn:E.
  - done.
  - rewrite reverse_app, reverse_involutive.
    destruct (reverse (c :: k)) eqn:E'; [|done].
    apply (f_equal reverse) in E'. rewrite reverse_involutive in E'. done.
Qed.

Lemma strip_head (s : str) (c : N) :
  head (strip s) = Some c → isspace c = false.
Proof.
  unfold strip. intros H. apply (lstrip_head s).
  destruct (rstrip_prefix (lstrip s)) as [k Hk].
  rewrite Hk. by destruct (rstrip (lstrip s)).
Qed.

Lemma strip_last (s : str) (c : N) :
  last (strip s) = Some c → isspace c = false.
Proof. apply rstrip_last. Qed.

Lemma strip_trimmed (s : str) : strip s ≠ [] → trimmed (strip s).
Proof.
  intros H. split; [done|]. split; [apply strip_head|apply strip_last].
Qed.

Lemma strip_id (s : str) : trimmed s → strip s = s.
Proof.
  intros (_ & Hh & Hl). unfold strip. by rewrite lstrip_id, rstrip_id.
Qed.

Lemma elem_of_strip (s : str) (c : N) : c ∈ strip s → c ∈ s.
Proof.
  unfold strip. intros H.
  destruct (rstrip_prefix (lstrip s)) as [k Hk].
  destruct (lstrip_suffix s) as [k' Hk'].
  rewrite Hk', Hk. apply elem_of_app. right. apply elem_of_app. by left.
Qed.

(** A trimmed text between white space strips to itself. *)
Lemma strip_padded (a s b : str) :
  Forall (λ c, isspace c = true) a → Forall (λ c, isspace c = true) b →
  trimmed s → strip (a ++ s ++ b) = s.
Proof.
  intros Ha Hb (Hne & Hh & Hl).
  assert (∀ k, Forall (λ c, isspace c = true) k → lstrip k = []) as Hall.
  { induction 1 as [|c k Hc _ IH]; simpl; [done|]. by rewrite Hc. }
  unfold strip.
  rewrite lstrip_app, (Hall a Ha), lstrip_app, (lstrip_id s Hh).
  assert (rstrip b = []) as Hrb.
  { unfold rstrip. rewrite Hall; [done|]. by apply Forall_reverse. }
  destruct s as [|c0 s0]; [done|].
  by rewrite rstrip_app, Hrb, rstrip_id.
Qed.

Lemma split_nonempty (sep : N) (s : str) : split sep s ≠ [].
Proof.
  induction s as [|c s IH]; simpl; [done|].
  destruct (decide (c = sep)); [done|]. by destruct (split sep s).
Qed.

Lemma split_no_sep (sep : N) (s : str) :
  Forall (λ p, sep ∉ p) (split sep s).
Proof.
  induction s as [|c s IH]; simpl.
  - repeat constructor. apply not_elem_of_nil.
  - destruct (decide (c = sep)) as [->|Hne].
    + constructor; [apply not_elem_of_nil|done].
    + destruct (split sep s) as [|p ps]; [repeat constructor|].
      * intros Hin. apply list_elem_of_singleton in Hin. done.
      * apply Forall_cons in IH as [Hp Hps]. constructor; [|done].
        intros Hin. apply elem_of_cons in Hin as [Hin|Hin]; done.
Qed.

Lemma split_app_sep (sep : N) (p rest : str) :
  sep ∉ p → split sep (p ++ sep :: rest) = p :: split sep rest.
Proof.
  induction p as [|c p IH]; simpl; intros Hp.
  - by rewrite decide_True.
  - rewrite decide_False by (intros ->; apply Hp; left).
    rewrite IH; [done|]. intros Hin. apply Hp. by right.
Qed.

Lemma split_no_sep_id (sep : N) (p : str) : sep ∉ p → split sep p = [p].
Proof.
  induction p as [|c p IH]; simpl; intros Hp; [done|].
  rewrite decide_False by (intros ->; apply Hp; left).
  rewrite IH; [done|]. intros Hin. apply Hp. by right.
Qed.

(** Joining the pieces of a split gives the text back. *)
Lemma join_split (sep : N) (s : str) : join [sep] (split sep s) = s.
Proof.
  induction s as [|c s IH]; simpl; [done|].
  destruct (decide (c = sep)) as [->|Hne].
  - pose proof (split_nonempty sep s).
    destruct (split sep s) as [|p ps] eqn:E; [done|].
    simpl in *. by rewrite IH.
  - destruct (split sep s) as [|p ps] eqn:E.
    + by destruct (split_nonempty sep s).
    + simpl in *. destruct ps; simpl in *; by rewrite <- IH.
Qed.

(** ** [load_tickers] *)

Lemma elem_of_load_filter (f : list str) (t : str) :
  t ∈ strip <$> filter (λ x, strip x ≠ [] ∧ ¬ hash `prefix_of` strip x) f
  ↔ ∃ x, x ∈ f ∧ t = strip x ∧ t ≠ [] ∧ ¬ hash `prefix_of` t.
Proof.
  rewrite list_elem_of_fmap. split.
  - intros (x & -> & Hx). apply list_elem_of_filter in Hx as [[H1 H2] Hx]. eauto.
  - intros (x & Hx & -> & H1 & H2). exists x. split; [done|].
    by apply list_elem_of_filter.
Qed.


Lemma load_filter_trimmed (ts : list str) :
  Forall (λ t, trimmed t ∧ ¬ hash `prefix_of` t) ts →
  strip <$> filter (λ x, strip x ≠ [] ∧ ¬ hash `prefix_of` strip x)
                   ((λ t, t ++ [newline]) <$> ts)
  = ts.
Proof.
  induction 1 as [|t ts [Ht Hh] _ IH]; [done|].
  assert (strip (t ++ [newline]) = t) as Hs.
  { apply (strip_padded [] t [newline]); [done| |done]. by repeat constructor. }
  rewrite fmap_cons, filter_cons, Hs.
  rewrite decide_True by (split; [apply Ht|done]).
  rewrite fmap_cons, Hs. f_equal. exact IH.
Qed.

Lemma load_tickers_Returns (file : option (list str)) (ts : list str) :
  load_tickers file = Returns ts →
  ts ≠ [] ∧ Forall (λ t, trimmed t ∧ ¬ hash `prefix_of` t) ts.
Proof.
  destruct file as [f|]; [|done]. simpl.
  destruct (decide (_ = [])) as [|Hne]; [done|]. intros [= <-].
  split; [done|]. apply Forall_forall. intros t Ht.
  apply elem_of_load_filter in Ht as (x & Hx & -> & H1 & H2).
  split; [by apply strip_trimmed|done].
Qed.

(** What [load_tickers] returns can be written back one ticker per line
    and loaded again: the same list comes out. *)
Theorem load_tickers_round_trip (file : option (list str)) (ts : list str) :
  load_tickers file = Returns ts →
  load_tickers (Some ((λ t, t ++ [newline]) <$> ts)) = Returns ts.
Proof.
  intros H. destruct (load_tickers_Returns file ts H) as [Hne Hall].
  unfold load_tickers. cbv zeta.
  set (again := strip <$> _).
  assert (again = ts) as -> by exact (load_filter_trimmed ts Hall).
  by destruct (decide (ts = [])).
Qed.

(** ** Recipients *)

Lemma split_join_comma_space (r : str) (rs : list str) :
  Forall (λ x, comma ∉ x) (r :: rs) →
  split comma (join comma_space (r :: rs)) = r :: ((λ x, 32%N :: x) <$> rs).
Proof.
  revert r. induction rs as [|r' rs IH]; intros r Hall.
  - apply Forall_cons in Hall as [Hr _]. simpl. by apply split_no_sep_id.
  - apply Forall_cons in Hall as [Hr Hall].
    change (join comma_space (r :: r' :: rs))
      with (r ++ comma :: 32%N :: join comma_space (r' :: rs)).
    rewrite split_app_sep by done.
    change (split comma (32%N :: join comma_space (r' :: rs)))
      with (match split comma (join comma_space (r' :: rs)) with
            | piece :: pieces => (32%N :: piece) :: pieces
            | [] => [[32%N]]
            end).
    by rewrite (IH r' Hall).
Qed.

Lemma recipients_of_padded (rs : list str) :
  Forall trimmed rs →
  strip <$> filter (λ x, strip x ≠ []) ((λ x, 32%N :: x) <$> rs) = rs.
Proof.
  induction 1 as [|r rs Hr _ IH]; [done|].
  assert (strip (32%N :: r) = r) as Hs.
  { rewrite <- (app_nil_r r) at 1. apply (strip_padded [32%N] r []); [|done..].
    by repeat constructor. }
  rewrite fmap_cons, filter_cons, Hs.
  rewrite decide_True by apply Hr.
  rewrite fmap_cons, Hs. f_equal. exact IH.
Qed.

(** The recipients parsed from SMTP_TO are not empty, have no white space
    at either end and hold no comma; the To header made of them, parsed
    the same way, gives the same recipients back. *)
Theorem recipients_are_clean_and_reparse (to : str) :
  Forall (λ r, trimmed r ∧ comma ∉ r) (recipients_of to)
  ∧ recipients_of (join comma_space (recipients_of to)) = recipients_of to.
Proof.
  assert (Forall (λ r, trimmed r ∧ comma ∉ r) (recipients_of to)) as Hclean.
  { apply Forall_forall. intros r Hr. unfold recipients_of in Hr.
    apply list_elem_of_fmap in Hr as (x & -> & Hx).
    apply list_elem_of_filter in Hx as [Hne Hx].
    split; [by apply strip_trimmed|].
    intros Hin. apply elem_of_strip in Hin.
    pose proof (split_no_sep comma to) as Hsep.
    eapply Forall_forall in Hsep; [|exact Hx]. done. }
  split; [done|].
  destruct (recipients_of to) as [|r rs] eqn:E; [done|].
  unfold recipients_of at 1.
  rewrite split_join_comma_space
    by (eapply Forall_impl; [exact Hclean|]; by intros ? [_ ?]).
  assert (Forall trimmed (r :: rs)) as Ht
    by (eapply Forall_impl; [exact Hclean|]; by intros ? [? _]).
  apply Forall_cons in Ht as [Hr Hrs].
  rewrite filter_cons, (strip_id r Hr).
  rewrite decide_True by apply Hr.
  by rewrite fmap_cons, (strip_id r Hr), recipients_of_padded.
Qed.

(** ** [send_email] *)

Lemma attach_all_spec (fs : files) (paths : list str) :
  attach_all fs paths
  = (WarnMissing <$> filter (λ p, fs p = None) paths,
     omap (λ p, c ← fs p; Some (basename p, c)) paths).
Proof.
  induction paths as [|p ps IH]; [done|].
  simpl attach_all. rewrite IH, filter_cons. cbn [fst snd].
  change (omap (λ p, c ← fs p; Some (basename p, c)) (p :: ps))
    with (match (c ← fs p; Some (basename p, c)) with
          | Some y => y :: omap (λ p, c ← fs p; Some (basename p, c)) ps
          | None => omap (λ p, c ← fs p; Some (basename p, c)) ps
          end).
  destruct (decide (fs p = None)) as [E|E].
  - by rewrite E.
  - by destruct (fs p).
Qed.

Lemma recipients_of_nil : recipients_of [] = [].
Proof. done. Qed.

(** The five ways [send_email] ends. *)
Lemma send_email_cases (env : Env) (smtp : Session → option glue_exn)
    (subj : subject) (b : body) (atts : list str) (st : State) :
  let to := default [] (SMTP_TO env) in
  (SMTP_PORT env = None
   ∧ send_email env smtp subj b atts st = (st, Raises BadPort))
  ∨ (∃ p, SMTP_PORT env = Some p
        ∧ (truthy (SMTP_USER env) = false ∨ truthy (SMTP_PASS env) = false
           ∨ to = [])
        ∧ send_email env smtp subj b atts st
          = (log WarnIncomplete st, Returns false))
  ∨ (∃ p, SMTP_PORT env = Some p
        ∧ truthy (SMTP_USER env) = true ∧ truthy (SMTP_PASS env) = true
        ∧ to ≠ [] ∧ recipients_of to = []
        ∧ send_email env smtp subj b atts st
          = (log WarnNoRecipients st, Returns false))
  ∨ (∃ p s,
        SMTP_PORT env = Some p
        ∧ truthy (SMTP_USER env) = true ∧ truthy (SMTP_PASS env) = true
        ∧ recipients_of to ≠ []
        ∧ s = {| host := default (text "smtp.gmail.com") (SMTP_HOST env);
                 port := p;
                 login_user := default [] (SMTP_USER env);
                 login_password := default [] (SMTP_PASS env);
                 envelope_from := default [] (SMTP_USER env);
                 envelope_to := recipients_of to;
                 payload :=
                   {| From := default [] (SMTP_USER env);
                      To := join comma_space (recipients_of to);
                      Subject := subj; Body := b;
                      Attachments :=
                        omap (λ p, c ← disk st p; Some (basename p, c)) atts |} |}
        ∧ ((∃ e, smtp s = Some e
               ∧ send_email env smtp subj b atts st
                 = (log_all (WarnMissing <$> filter (λ p, disk st p = None) atts) st,
                    Raises e))
           ∨ (smtp s = None
              ∧ send_email env smtp subj b atts st
                = ({| disk := disk st;
                      printed := printed st
                                 ++ (WarnMissing <$> filter (λ p, disk st p = None) atts)
                                 ++ [MailSent (recipients_of to)];
                      sessions := sessions st ++ [s] |},
                   Returns true)))).
Proof.
  intros to. unfold send_email. fold to.
  destruct (SMTP_PORT env) as [p|]; [|by left].
  right.
  destruct (truthy (SMTP_USER env)) eqn:Eu; simpl;
    [|left; exists p; eauto].
  destruct (truthy (SMTP_PASS env)) eqn:Ep; simpl;
    [|left; exists p; eauto].
  destruct to as [|c to'] eqn:Eto; simpl; [left; exists p; eauto|].
  right. rewrite <- Eto.
  destruct (decide (recipients_of to = [])) as [Er|Er].
  { left. exists p. repeat split; try done. by rewrite Eto. }
  right. rewrite attach_all_spec. cbn [fst snd].
  eexists p, _. repeat (split; [done|]).
  match goal with |- context [smtp ?s] => destruct (smtp s) as [e|] eqn:Es end.
  - left. exists e. done.
  - right. split; [done|]. unfold log, log_all. simpl.
    by rewrite <- app_assoc.
Qed.

Lemma send_email_contacts_no_server (env : Env) (smtp : Session → option glue_exn)
    (subj : subject) (b : body) (atts : list str) (st : State) (p : Z) :
  SMTP_PORT env = Some p →
  truthy (SMTP_USER env) = false ∨ truthy (SMTP_PASS env) = false
  ∨ recipients_of (default [] (SMTP_TO env)) = [] →
  (send_email env smtp subj b atts st).2 = Returns false
  ∧ sessions (send_email env smtp subj b atts st).1 = sessions st.
Proof.
  intros Hport Hcfg.
  destruct (send_email_cases env smtp subj b atts st)
    as [[Hp ->]|[(p' & Hp & _ & ->)|[(p' & Hp & Hu & Hw & Hto & Hr & ->)
       |(p' & s & Hp & Hu & Hw & Hr & Hs & _)]]];
    cbn [fst snd log sessions]; [congruence|done|done|].
  destruct Hcfg as [?|[?|?]]; congruence.
Qed.

(** [send_email] never writes a file.  It returns [False] exactly when
    the port is a number and the user, the password or every recipient of
    SMTP_TO is missing: it has then printed one warning and opened no
    session.  It returns [True] exactly when a session went through, and
    a session that went through is addressed to the recipients of SMTP_TO,
    of which there is at least one, with a user and a password that are
    not empty. *)
Theorem send_email_contacts_the_server_only_when_configured
    (env : Env) (smtp : Session → option glue_exn)
    (subj : subject) (b : body) (atts : list str) (st : State) :
  let r := send_email env smtp subj b atts st in
  disk r.1 = disk st
  ∧ (r.2 = Returns false
     ↔ (∃ p, SMTP_PORT env = Some p)
       ∧ (truthy (SMTP_USER env) = false ∨ truthy (SMTP_PASS env) = false
          ∨ recipients_of (default [] (SMTP_TO env)) = []))
  ∧ (r.2 = Returns false →
     sessions r.1 = sessions st
     ∧ ∃ ev, printed r.1 = printed st ++ [ev]
           ∧ (ev = WarnIncomplete ∨ ev = WarnNoRecipients))
  ∧ (r.2 = Returns true
     ↔ ∃ s, sessions r.1 = sessions st ++ [s])
  ∧ (∀ s, sessions r.1 = sessions st ++ [s] →
       smtp s = None
       ∧ envelope_to s = recipients_of (default [] (SMTP_TO env))
       ∧ envelope_to s ≠ []
       ∧ truthy (Some (login_user s)) = true
       ∧ truthy (Some (login_password s)) = true).
Proof.
  intros r. subst r.
  assert (∀ (l : list Session) s, l = l ++ [s] → False) as Hfresh.
  { intros l s H. apply (f_equal length) in H. rewrite length_app in H.
    simpl in H. lia. }
  destruct (send_email_cases env smtp subj b atts st)
    as [[Hp ->]|[(p & Hp & Hcfg & ->)|[(p & Hp & Hu & Hw & Hto & Hr & ->)
       |(p & s & Hp & Hu & Hw & Hr & Hs & [(e & He & ->)|[He ->]])]]];
    cbn [fst snd log log_all disk sessions printed].
  - split; [done|]. split; [split; [done|by intros [[? ?] _]; congruence]|].
    split; [done|]. split; [split; [done|intros [s Hs]; by destruct (Hfresh _ _ Hs)]|].
    intros s Hs. by destruct (Hfresh _ _ Hs).
  - split; [done|]. split.
    { split; [|done]. intros _. split; [eauto|].
      destruct Hcfg as [?|[?|Hto]]; [eauto..|].
      right. right. by rewrite Hto. }
    split; [eauto|].
    split; [split; [done|intros [s Hs]; by destruct (Hfresh _ _ Hs)]|].
    intros s Hs. by destruct (Hfresh _ _ Hs).
  - split; [done|]. split; [split; [eauto|done]|].
    split; [eauto|].
    split; [split; [done|intros [s Hs]; by destruct (Hfresh _ _ Hs)]|].
    intros s Hs. by destruct (Hfresh _ _ Hs).
  - split; [done|]. split.
    { split; [done|]. intros [_ [?|[?|?]]]; congruence. }
    split; [done|].
    split; [split; [done|intros [s' Hs']; by destruct (Hfresh _ _ Hs')]|].
    intros s' Hs'. by destruct (Hfresh _ _ Hs').
  - split; [done|]. split.
    { split; [done|]. intros [_ [?|[?|?]]]; congruence. }
    split; [done|].
    split; [split; [eauto|done]|].
    intros s' Hs'. apply app_inj_tail in Hs' as [_ <-]. subst s. simpl.
    split; [done|]. split; [done|]. split; [done|].
    split.
    + by destruct (SMTP_USER env) as [[|]|].
    + by destruct (SMTP_PASS env) as [[|]|].
Qed.

(** A message that goes out carries, under their base names and in the
    order given, the attachments that exist; one warning is printed for
    each one that does not.  Its To header is the recipients joined with
    comma and space, and the envelope has the same recipients. *)
Theorem sent_message_carries_the_existing_attachments
    (env : Env) (smtp : Session → option glue_exn)
    (subj : subject) (b : body) (atts : list str) (st : State) :
  (send_email env smtp subj b atts st).2 = Returns true →
  ∃ s,
    sessions (send_email env smtp subj b atts st).1 = sessions st ++ [s]
    ∧ Subject (payload s) = subj
    ∧ Body (payload s) = b
    ∧ Attachments (payload s)
      = omap (λ p, c ← disk st p; Some (basename p, c)) atts
    ∧ To (payload s) = join comma_space (envelope_to s)
    ∧ From (payload s) = envelope_from s
    ∧ printed (send_email env smtp subj b atts st).1
      = printed st
        ++ (WarnMissing <$> filter (λ p, disk st p = None) atts)
        ++ [MailSent (envelope_to s)].
Proof.
  destruct (send_email_cases env smtp subj b atts st)
    as [[Hp ->]|[(p & Hp & Hcfg & ->)|[(p & Hp & Hu & Hw & Hto & Hr & ->)
       |(p & s & Hp & Hu & Hw & Hr & Hs & [(e & He & ->)|[He ->]])]]];
    cbn [fst snd]; try done.
  intros _. exists s. rewrite Hs. done.
Qed.

(** ** [export_reports] and [main] *)

Lemma last_split_after_sep (sep : N) (a name : str) :
  sep ∉ name → last (split sep (a ++ sep :: name)) = Some name.
Proof.
  intros Hname. induction a as [|c a IH]; simpl.
  - rewrite decide_True by done. by rewrite (split_no_sep_id sep name Hname).
  - destruct (decide (c = sep)) as [->|Hne].
    + pose proof (split_nonempty sep (a ++ sep :: name)).
      destruct (split sep (a ++ sep :: name)); [done|]. by rewrite last_cons_cons.
    + pose proof (join_split sep (a ++ sep :: name)) as Hjoin.
      pose proof (split_no_sep sep (a ++ sep :: name)) as Hno.
      destruct (split sep (a ++ sep :: name)) as [|p [|p' ps]].
      * done.
      * simpl in Hjoin. subst p. apply Forall_cons in Hno as [Hno _].
        destruct Hno. apply elem_of_app. right. left.
      * by rewrite last_cons_cons in IH |- *.
Qed.

Lemma basename_after_slash (dir name : str) :
  47%N ∉ name → basename (dir ++ 47%N :: name) = name.
Proof. intros H. unfold basename. by rewrite last_split_after_sep. Qed.

Lemma not_elem_of_app_3 (c : N) (a b d : str) :
  c ∉ a → c ∉ b → c ∉ d → c ∉ a ++ b ++ d.
Proof. intros ? ? ?. rewrite !elem_of_app. tauto. Qed.

Lemma not_elem_of_text_scan : 47%N ∉ text "scan_".
Proof. intros H. by repeat (apply elem_of_cons in H as [H|H]; [done|]); apply not_elem_of_nil in H. Qed.

Lemma not_elem_of_text_csv : 47%N ∉ text ".csv".
Proof. intros H. by repeat (apply elem_of_cons in H as [H|H]; [done|]); apply not_elem_of_nil in H. Qed.

Lemma not_elem_of_text_html : 47%N ∉ text ".html".
Proof. intros H. by repeat (apply elem_of_cons in H as [H|H]; [done|]); apply not_elem_of_nil in H. Qed.

Lemma basename_csv_path (stamp : str) :
  47%N ∉ stamp → basename (csv_path stamp) = text "scan_" ++ stamp ++ text ".csv".
Proof.
  intros H. apply basename_after_slash, not_elem_of_app_3;
    [apply not_elem_of_text_scan|done|apply not_elem_of_text_csv].
Qed.

Lemma basename_html_path (stamp : str) :
  47%N ∉ stamp → basename (html_path stamp) = text "scan_" ++ stamp ++ text ".html".
Proof.
  intros H. apply basename_after_slash, not_elem_of_app_3;
    [apply not_elem_of_text_scan|done|apply not_elem_of_text_html].
Qed.

Lemma basename_err_path : basename err_path = text "error.txt".
Proof. done. Qed.

Lemma csv_path_ne_html_path (stamp : str) : csv_path stamp ≠ html_path stamp.
Proof.
  unfold csv_path, html_path, path_join. intros H.
  apply app_inv_head in H. injection H as H.
  apply app_inv_head in H. done.
Qed.

Lemma err_path_ne_reports (stamp : str) :
  err_path ≠ csv_path stamp ∧ err_path ≠ html_path stamp.
Proof.
  unfold err_path, csv_path, html_path, path_join.
  split; intros H; apply app_inv_head in H; injection H as H; done.
Qed.

(** The two report files are on disk after [export_reports], whatever was
    there before, and nothing else changes. *)
Lemma export_reports_disk (stamp : str) (df : list Row) (st : State) :
  disk (export_reports stamp df st).1 (csv_path stamp) = Some (CsvOf df)
  ∧ disk (export_reports stamp df st).1 (html_path stamp) = Some (HtmlOf df)
  ∧ (∀ q, q ≠ csv_path stamp → q ≠ html_path stamp →
       disk (export_reports stamp df st).1 q = disk st q)
  ∧ sessions (export_reports stamp df st).1 = sessions st.
Proof.
  unfold export_reports, write_file, log, write.
  cbn [fst snd disk sessions printed].
  pose proof (csv_path_ne_html_path stamp).
  split; [|split; [|split]].
  - rewrite decide_False by done. by rewrite decide_True.
  - by rewrite decide_True.
  - intros q H1 H2. by rewrite !decide_False.
  - done.
Qed.

Lemma pipeline_cases (w : World) :
  (∃ e, load_tickers (tickers_file w) = Raises e
      ∧ pipeline w (initial w) = (initial w, Raises e))
  ∨ (∃ tickers,
       load_tickers (tickers_file w) = Returns tickers
       ∧ ((∃ e, fetch_prices (download w tickers) = Raises e
              ∧ pipeline w (initial w) = (after_load w tickers, Raises e))
          ∨ (∃ data,
               fetch_prices (download w tickers) = Returns data
               ∧ ((∃ e, (compute_signals data []).2 = Raise e
                      ∧ pipeline w (initial w)
                        = (after_engine w tickers data, Raises (EngineError e)))
                  ∨ (∃ df, (compute_signals data []).2 = Ok df
                         ∧ pipeline w (initial w)
                           = send_email (environ w) (smtp w) ScanSubject
                               (TopTen (take 10 df))
                               [csv_path (stamp w); html_path (stamp w)]
                               (export_reports (stamp w) df
                                  (after_engine w tickers data)).1))))).
Proof.
  unfold pipeline.
  destruct (load_tickers (tickers_file w)) as [tickers|e]; [|left; eauto].
  right. exists tickers. split; [done|].
  fold (after_load w tickers).
  destruct (fetch_prices (download w tickers)) as [data|e]; [|left; eauto].
  right. exists data. split; [done|].
  fold (after_engine w tickers data).
  destruct ((compute_signals data []).2) as [df|e]; [|left; eauto].
  right. exists df. done.
Qed.


Lemma scan_mail_cases (w : World) (df : list Row) (st0 : State) :
  disk (scan_mail w df st0).1 (csv_path (stamp w)) = Some (CsvOf df)
  ∧ disk (scan_mail w df st0).1 (html_path (stamp w)) = Some (HtmlOf df)
  ∧ disk (scan_mail w df st0).1 err_path = disk st0 err_path
  ∧ ((sessions (scan_mail w df st0).1 = sessions st0
      ∧ ((scan_mail w df st0).2 = Returns false
         ∨ (scan_mail w df st0).2 = Raises BadPort
           ∧ SMTP_PORT (environ w) = None
         ∨ ∃ s e, (scan_mail w df st0).2 = Raises e ∧ smtp w s = Some e
                ∧ Subject (payload s) = ScanSubject))
     ∨ (∃ s, (scan_mail w df st0).2 = Returns true
           ∧ sessions (scan_mail w df st0).1 = sessions st0 ++ [s]
           ∧ Subject (payload s) = ScanSubject
           ∧ Body (payload s) = TopTen (take 10 df)
           ∧ Attachments (payload s)
             = [(basename (csv_path (stamp w)), CsvOf df);
                (basename (html_path (stamp w)), HtmlOf df)])).
Proof.
  destruct (export_reports_disk (stamp w) df st0) as (Hcsv & Hhtml & Hother & Hsess).
  destruct (err_path_ne_reports (stamp w)) as [Hne1 Hne2].
  pose proof (Hother err_path Hne1 Hne2) as Herr.
  unfold scan_mail.
  set (st1 := (export_reports (stamp w) df st0).1) in *.
  assert (omap (λ p, c ← disk st1 p; Some (basename p, c))
               [csv_path (stamp w); html_path (stamp w)]
          = [(basename (csv_path (stamp w)), CsvOf df);
             (basename (html_path (stamp w)), HtmlOf df)]) as Hatt.
  { unfold omap, list_omap. by rewrite Hcsv, Hhtml. }
  destruct (send_email_cases (environ w) (smtp w) ScanSubject (TopTen (take 10 df))
              [csv_path (stamp w); html_path (stamp w)] st1)
    as [[Hp ->]|[(p & Hp & Hcfg & ->)|[(p & Hp & Hu & Hw & Hto & Hr & ->)
       |(p & s & Hp & Hu & Hw & Hr & Hs & [(e & He & ->)|[He ->]])]]];
    cbn [fst snd disk sessions log log_all];
    (split; [exact Hcsv|]); (split; [exact Hhtml|]); (split; [exact Herr|]).
  - left. split; [exact Hsess|]. right. left. by split.
  - left. split; [exact Hsess|]. by left.
  - left. split; [exact Hsess|]. by left.
  - left. split; [exact Hsess|]. right. right. exists s, e.
    split; [reflexivity|]. split; [exact He|]. by rewrite Hs.
  - right. exists s. split; [reflexivity|]. split; [by rewrite Hsess|].
    rewrite Hs. cbn [payload Subject Body Attachments].
    split; [reflexivity|]. split; [reflexivity|]. exact Hatt.
Qed.

(** When the [try] block of [main] ends without exception, [main] returns
    normally and both report files of the ranked frame are on disk.  If
    the mail went out, exactly one session took place: its message has the
    scan subject, shows the first ten records of the ranked frame and
    carries the two report files, under the names [scan_<stamp>.csv] and
    [scan_<stamp>.html] when the stamp has no slash. *)
Theorem main_success_exports_and_mails_the_reports
    (w : World) (st : State) (sent : bool) :
  pipeline w (initial w) = (st, Returns sent) →
  main w = (st, Returns ())
  ∧ ∃ tickers data df,
      load_tickers (tickers_file w) = Returns tickers
      ∧ fetch_prices (download w tickers) = Returns data
      ∧ (compute_signals data []).2 = Ok df
      ∧ disk st (csv_path (stamp w)) = Some (CsvOf df)
      ∧ disk st (html_path (stamp w)) = Some (HtmlOf df)
      ∧ disk st err_path = files_before w err_path
      ∧ (sent = false → sessions st = [])
      ∧ (sent = true →
         ∃ s, sessions st = [s]
            ∧ Subject (payload s) = ScanSubject
            ∧ Body (payload s) = TopTen (take 10 df)
            ∧ Attachments (payload s)
              = [(basename (csv_path (stamp w)), CsvOf df);
                 (basename (html_path (stamp w)), HtmlOf df)]
            ∧ (47%N ∉ stamp w →
               basename (csv_path (stamp w))
               = text "scan_" ++ stamp w ++ text ".csv"
               ∧ basename (html_path (stamp w))
                 = text "scan_" ++ stamp w ++ text ".html")).
Proof.
  intros Hpipe. split; [unfold main; by rewrite Hpipe|].
  destruct (pipeline_cases w)
    as [(e & _ & H)|(tickers & Hload & [(e & _ & H)|(data & Hfetch &
        [(e & _ & H)|(df & Hdf & H)])])];
    rewrite Hpipe in H; try done.
  exists tickers, data, df.
  split; [exact Hload|]. split; [exact Hfetch|]. split; [exact Hdf|].
  fold (scan_mail w df (after_engine w tickers data)) in H.
  destruct (scan_mail_cases w df (after_engine w tickers data))
    as (Hcsv & Hhtml & Herr & Hmail).
  rewrite <- H in Hcsv, Hhtml, Herr, Hmail. cbn [fst snd] in *.
  split; [exact Hcsv|]. split; [exact Hhtml|]. split; [exact Herr|].
  destruct Hmail as [[Hs Hr]|(s & Hr & Hs & Hsub & Hbody & Hatt)].
  - split; [intros _; exact Hs|]. intros ->.
    destruct Hr as [?|[[? _]|(? & ? & ? & _)]]; discriminate.
  - split; [intros ->; discriminate|]. intros _. exists s.
    split; [exact Hs|]. split; [exact Hsub|]. split; [exact Hbody|].
    split; [exact Hatt|]. intros Hstamp.
    split; [by apply basename_csv_path|by apply basename_html_path].
Qed.


Lemma failure_notice_cases (w : World) (e : glue_exn) (st : State) :
  disk (failure_notice w e st).1 err_path = Some (ErrorReport e)
  ∧ TaskFailed e ∈ printed (failure_notice w e st).1
  ∧ ((sessions (failure_notice w e st).1 = sessions st
      ∧ ((failure_notice w e st).2 = Returns false
         ∨ (failure_notice w e st).2 = Raises BadPort
           ∧ SMTP_PORT (environ w) = None
         ∨ ∃ s e', (failure_notice w e st).2 = Raises e' ∧ smtp w s = Some e'
                 ∧ Subject (payload s) = FailureSubject))
     ∨ (∃ s, (failure_notice w e st).2 = Returns true
           ∧ sessions (failure_notice w e st).1 = sessions st ++ [s]
           ∧ Subject (payload s) = FailureSubject
           ∧ Body (payload s) = Traceback e
           ∧ Attachments (payload s) = [(text "error.txt", ErrorReport e)])).
Proof.
  unfold failure_notice.
  set (st1 := write_file err_path (ErrorReport e) (log (TaskFailed e) st)).
  assert (disk st1 err_path = Some (ErrorReport e)) as Hdisk.
  { unfold st1, write_file, write. cbn [disk]. by rewrite decide_True. }
  assert (TaskFailed e ∈ printed st1) as Hlog.
  { unfold st1, write_file, log. cbn [printed]. apply elem_of_app. right. left. }
  assert (sessions st1 = sessions st) as Hsess by done.
  assert (omap (λ p, c ← disk st1 p; Some (basename p, c)) [err_path]
          = [(text "error.txt", ErrorReport e)]) as Hatt.
  { unfold omap, list_omap. rewrite Hdisk. cbn [mbind option_bind].
    by rewrite basename_err_path. }
  destruct (send_email_cases (environ w) (smtp w) FailureSubject (Traceback e)
              [err_path] st1)
    as [[Hp ->]|[(p & Hp & Hcfg & ->)|[(p & Hp & Hu & Hw & Hto & Hr & ->)
       |(p & s & Hp & Hu & Hw & Hr & Hs & [(e' & He & ->)|[He ->]])]]];
    cbn [fst snd disk sessions printed log log_all];
    (split; [exact Hdisk|]).
  - split; [exact Hlog|]. left. split; [exact Hsess|]. right. left. by split.
  - split; [apply elem_of_app; by left|]. left. split; [exact Hsess|]. by left.
  - split; [apply elem_of_app; by left|]. left. split; [exact Hsess|]. by left.
  - split; [apply elem_of_app; by left|]. left. split; [exact Hsess|].
    right. right. exists s, e'.
    split; [reflexivity|]. split; [exact He|]. by rewrite Hs.
  - split; [apply elem_of_app; by left|]. right. exists s.
    split; [reflexivity|]. split; [by rewrite Hsess|].
    rewrite Hs. cbn [payload Subject Body Attachments].
    split; [reflexivity|]. split; [reflexivity|]. exact Hatt.
Qed.

Lemma main_on_failure (w : World) (st : State) (e : glue_exn) :
  pipeline w (initial w) = (st, Raises e) →
  (main w).1 = (failure_notice w e st).1
  ∧ (main w).2 = match (failure_notice w e st).2 with
                 | Returns _ => Returns ()
                 | Raises e' => Raises e'
                 end.
Proof.
  intros H. unfold main. rewrite H. fold (failure_notice w e st).
  by destruct (failure_notice w e st) as [st' [b|e']].
Qed.

Lemma pipeline_raises_no_session (w : World) (st : State) (e : glue_exn) :
  pipeline w (initial w) = (st, Raises e) → sessions st = [].
Proof.
  intros Hpipe.
  destruct (pipeline_cases w)
    as [(e' & _ & H)|(tickers & _ & [(e' & _ & H)|(data & _ &
        [(e' & _ & H)|(df & _ & H)])])];
    rewrite Hpipe in H; try by injection H as -> _.
  fold (scan_mail w df (after_engine w tickers data)) in H.
  destruct (scan_mail_cases w df (after_engine w tickers data))
    as (_ & _ & _ & Hmail).
  rewrite <- H in Hmail. cbn [fst snd] in Hmail.
  by destruct Hmail as [[Hs _]|(s & Hr & _)].
Qed.

(** When the [try] block of [main] fails with [e], the error report of
    [e] is written to [output/error.txt] and the failure is printed; no
    scan mail has gone out, and at most one session takes place: the
    failure notice, with the traceback of [e] and the error report
    attached. *)
Theorem main_failure_writes_the_report_and_notifies
    (w : World) (st : State) (e : glue_exn) :
  pipeline w (initial w) = (st, Raises e) →
  disk (main w).1 err_path = Some (ErrorReport e)
  ∧ TaskFailed e ∈ printed (main w).1
  ∧ (sessions (main w).1 = []
     ∨ ∃ s, sessions (main w).1 = [s]
          ∧ (main w).2 = Returns ()
          ∧ Subject (payload s) = FailureSubject
          ∧ Body (payload s) = Traceback e
          ∧ Attachments (payload s) = [(text "error.txt", ErrorReport e)]).
Proof.
  intros Hpipe.
  destruct (main_on_failure w st e Hpipe) as [-> ->].
  pose proof (pipeline_raises_no_session w st e Hpipe) as Hnone.
  destruct (failure_notice_cases w e st) as (Hdisk & Hlog & Hmail).
  split; [exact Hdisk|]. split; [exact Hlog|].
  destruct Hmail as [[Hs _]|(s & Hr & Hs & Hsub & Hbody & Hatt)].
  - left. by rewrite Hs.
  - right. exists s. rewrite Hs, Hnone, Hr. done.
Qed.

(** No exception of loading, downloading, ranking, exporting or of the
    scan mail leaves [main].  [main] raises only when the failure notice
    itself cannot be sent: the port is not a number, or the SMTP session
    of the notice fails.  With a numeric port and incomplete SMTP settings
    it returns normally and opens no session at all. *)
Theorem main_raises_only_when_the_failure_notice_fails (w : World) :
  (∀ e', (main w).2 = Raises e' →
     (e' = BadPort ∧ SMTP_PORT (environ w) = None)
     ∨ ∃ s, smtp w s = Some e' ∧ Subject (payload s) = FailureSubject)
  ∧ ((∃ p, SMTP_PORT (environ w) = Some p) → (∀ s, smtp w s = None) →
     (main w).2 = Returns ())
  ∧ ((∃ p, SMTP_PORT (environ w) = Some p) →
     truthy (SMTP_USER (environ w)) = false
     ∨ truthy (SMTP_PASS (environ w)) = false
     ∨ recipients_of (default [] (SMTP_TO (environ w))) = [] →
     (main w).2 = Returns () ∧ sessions (main w).1 = []).
Proof.
  assert (∀ e', (main w).2 = Raises e' →
            (e' = BadPort ∧ SMTP_PORT (environ w) = None)
            ∨ ∃ s, smtp w s = Some e' ∧ Subject (payload s) = FailureSubject)
    as Hraise.
  { intros e' Hmain.
    destruct (pipeline w (initial w)) as [st [b|e]] eqn:Hpipe.
    - unfold main in Hmain. by rewrite Hpipe in Hmain.
    - destruct (main_on_failure w st e Hpipe) as [_ Hres].
      rewrite Hres in Hmain.
      destruct (failure_notice_cases w e st) as (_ & _ & Hmail).
      destruct Hmail as [[_ [Hr|[[Hr Hp]|(s & e0 & Hr & Hs & Hsub)]]]|(s & Hr & _)];
        rewrite Hr in Hmain; try discriminate.
      + injection Hmain as <-. by left.
      + injection Hmain as <-. right. eauto. }
  split; [exact Hraise|]. split.
  - intros [p Hp] Hsmtp.
    destruct ((main w).2) as [[]|e'] eqn:E; [done|].
    destruct (Hraise e' eq_refl) as [[_ Hnone]|(s & Hs & _)]; [congruence|].
    by rewrite Hsmtp in Hs.
  - intros [p Hp] Hcfg.
    destruct (pipeline w (initial w)) as [st [b|e]] eqn:Hpipe.
    + unfold main. rewrite Hpipe. cbn [fst snd]. split; [done|].
      destruct (pipeline_cases w)
        as [(e' & _ & H)|(tickers & _ & [(e' & _ & H)|(data & _ &
            [(e' & _ & H)|(df & _ & H)])])];
        rewrite Hpipe in H; try discriminate.
      fold (scan_mail w df (after_engine w tickers data)) in H.
      destruct (scan_mail_cases w df (after_engine w tickers data))
        as (_ & _ & _ & Hmail).
      pose proof (send_email_contacts_no_server (environ w) (smtp w) ScanSubject
                    (TopTen (take 10 df))
                    [csv_path (stamp w); html_path (stamp w)]
                    (export_reports (stamp w) df (after_engine w tickers data)).1
                    p Hp Hcfg) as [_ Hsess].
      fold (scan_mail w df (after_engine w tickers data)) in Hsess.
      rewrite <- H in Hsess. cbn [fst] in Hsess. by rewrite Hsess.
    + destruct (main_on_failure w st e Hpipe) as [-> ->].
      pose proof (pipeline_raises_no_session w st e Hpipe) as Hnone.
      pose proof (send_email_contacts_no_server (environ w) (smtp w) FailureSubject
                    (Traceback e) [err_path]
                    (write_file err_path (ErrorReport e) (log (TaskFailed e) st))
                    p Hp Hcfg) as [Hret Hsess].
      fold (failure_notice w e st) in Hret, Hsess.
      rewrite Hret, Hsess. done.
Qed.

(** ** The further properties on the sample inputs *)

Lemma price_and_date_of_last_present_close_witness :
  signals "GAP" (dropna (Sample.days 61) (OneColumn Sample.novol_close))
          (Sample.vol "RAMP") = Ok (Some Cases.trailing_gap_row)
  ∧ ∃ i p,
      Sample.days 61 !! i = Some (date Cases.trailing_gap_row)
      ∧ Sample.novol_close !! i = Some (Some p)
      ∧ (∀ j d q, (i < j)%nat → Sample.days 61 !! j = Some d →
           Sample.novol_close !! j ≠ Some (Some q))
      ∧ price Cases.trailing_gap_row = Fin (Qround_nd 4 p)
      ∧ (Qabs (Qround_nd 4 p - p) <= 1 / 20000)%Q.
Proof.
  split.
  - vm_compute. reflexivity.
  - apply (price_and_date_of_last_present_close "GAP" (Sample.days 61)
             Sample.novol_close (Sample.vol "RAMP") Cases.trailing_gap_row).
    vm_compute. reflexivity.
Defined.


Lemma record_fields_rounded_once_witness :
  signals "CROSS" (Sample.close "CROSS") (Sample.vol "CROSS")
  = Ok (Some SampleRows.cross)
  ∧ (py_round (price SampleRows.cross) 4 = price SampleRows.cross
     ∧ (λ x, py_round x 2) <$> d_change_pct SampleRows.cross
       = d_change_pct SampleRows.cross
     ∧ (λ x, py_round x 2) <$> above_ma60_pct SampleRows.cross
       = above_ma60_pct SampleRows.cross).
Proof.
  split.
  - vm_compute. reflexivity.
  - apply (record_fields_rounded_once "CROSS" (Sample.close "CROSS")
             (Sample.vol "CROSS") SampleRows.cross).
    vm_compute. reflexivity.
Defined.

Lemma ties_in_ascending_ticker_order_witness :
  (compute_signals Sample.frame []).2 = Ok SampleRows.ranked
  ∧ ∀ i j a b, (i < j)%nat →
      SampleRows.ranked !! i = Some a → SampleRows.ranked !! j = Some b →
      rank_compare a b = Lt
      ∨ rank_compare a b = Eq ∧ String.compare (ticker a) (ticker b) = Lt.
Proof.
  split.
  - vm_compute. reflexivity.
  - apply (ties_in_ascending_ticker_order Sample.frame [] SampleRows.ranked).
    vm_compute. reflexivity.
Defined.

Lemma golden_cross_then_volume_spike_groups_witness :
  (compute_signals Sample.frame []).2 = Ok SampleRows.ranked
  ∧ (SampleRows.ranked
     = filter (λ r, golden_cross_5_20 r = true) SampleRows.ranked
       ++ filter (λ r, golden_cross_5_20 r = false) SampleRows.ranked
     ∧ ∀ g, filter (λ r, golden_cross_5_20 r = g) SampleRows.ranked
            = filter (λ r, vol_spike_vs_20d r = true)
                     (filter (λ r, golden_cross_5_20 r = g) SampleRows.ranked)
              ++ filter (λ r, vol_spike_vs_20d r = false)
                        (filter (λ r, golden_cross_5_20 r = g) SampleRows.ranked)).
Proof.
  split.
  - vm_compute. reflexivity.
  - apply (golden_cross_then_volume_spike_groups Sample.frame [] SampleRows.ranked).
    vm_compute. reflexivity.
Defined.

Lemma missing_volume_column_is_a_KeyError_witness :
  (columns Cases.frame_without_volume = MultiIndex Cases.cols_without_volume
   ∧ "A" ∈ universe Cases.frame_without_volume
   ∧ ∀ c, (("A", "Volume"), c) ∉ Cases.cols_without_volume)
  ∧ (try_ticker Cases.frame_without_volume "A" = Raise KeyError
     ∧ ComputeFailed "A" KeyError ∈ (compute_signals Cases.frame_without_volume []).1
     ∧ InsufficientData "A"
       ∉ drop (length (@nil diag)) (compute_signals Cases.frame_without_volume []).1).
Proof.
  assert ("A" ∈ universe Cases.frame_without_volume) as Hin
    by (vm_compute; left).
  assert (∀ c, (("A", "Volume"), c) ∉ Cases.cols_without_volume) as Hnot.
  { intros c H. apply list_elem_of_singleton in H. discriminate. }
  split; [exact (conj eq_refl (conj Hin Hnot))|].
  apply (missing_volume_column_is_a_KeyError Cases.frame_without_volume []
           Cases.cols_without_volume "A" eq_refl Hin Hnot).
Defined.

Lemma repeated_label_yields_no_record_witness :
  (columns Cases.frame_repeated = MultiIndex Cases.cols_repeated
   ∧ ((2 ≤ length (filter (λ c, c.1 = ("A", "Close")) Cases.cols_repeated))%nat
      ∨ (2 ≤ length (filter (λ c, c.1 = ("A", "Volume")) Cases.cols_repeated))%nat))
  ∧ try_ticker Cases.frame_repeated "A" ≠ Ok (Some Cases.single_row).
Proof.
  assert ((2 ≤ length (filter (λ c, c.1 = ("A", "Close")) Cases.cols_repeated))%nat)
    as Hdup by (vm_compute; lia).
  split; [exact (conj eq_refl (or_introl Hdup))|].
  apply (repeated_label_yields_no_record Cases.frame_repeated Cases.cols_repeated
           "A" Cases.single_row eq_refl (or_introl Hdup)).
Defined.

Lemma flat_frame_yields_the_single_record_witness :
  (columns Cases.flat_frame = Index Cases.cols_flat
   ∧ (compute_signals Cases.flat_frame []).2 = Ok [Cases.single_row])
  ∧ ∃ r, [Cases.single_row] = [r] ∧ ticker r = "SINGLE"
       ∧ try_ticker Cases.flat_frame "SINGLE" = Ok (Some r)
       ∧ (compute_signals Cases.flat_frame []).1 = [].
Proof.
  assert ((compute_signals Cases.flat_frame []).2 = Ok [Cases.single_row]) as H
    by (vm_compute; reflexivity).
  split; [exact (conj eq_refl H)|].
  apply (flat_frame_yields_the_single_record Cases.flat_frame [] Cases.cols_flat
           [Cases.single_row] eq_refl H).
Defined.

Lemma flat_frame_without_close_or_volume_fails_witness :
  (columns Cases.flat_frame_close_only = Index Cases.cols_flat_close_only
   ∧ ((∀ c, ("Close", c) ∉ Cases.cols_flat_close_only)
      ∨ (∀ c, ("Volume", c) ∉ Cases.cols_flat_close_only)))
  ∧ compute_signals Cases.flat_frame_close_only []
    = ([] ++ [ComputeFailed "SINGLE" KeyError], Raise RuntimeError).
Proof.
  assert (∀ c, ("Volume", c) ∉ Cases.cols_flat_close_only) as Hnot.
  { intros c H. apply list_elem_of_singleton in H. discriminate. }
  split; [exact (conj eq_refl (or_intror Hnot))|].
  apply (flat_frame_without_close_or_volume_fails Cases.flat_frame_close_only []
           Cases.cols_flat_close_only eq_refl (or_intror Hnot)).
Defined.

Lemma no_close_label_fails_silently_witness :
  (columns Cases.frame_open_only = MultiIndex Cases.cols_open_only
   ∧ ∀ t c, ((t, "Close"), c) ∉ Cases.cols_open_only)
  ∧ compute_signals Cases.frame_open_only [] = ([], Raise RuntimeError).
Proof.
  assert (∀ t c, ((t, "Close"), c) ∉ Cases.cols_open_only) as Hnot.
  { intros t c H. apply list_elem_of_singleton in H. discriminate. }
  split; [exact (conj eq_refl Hnot)|].
  apply (no_close_label_fails_silently Cases.frame_open_only []
           Cases.cols_open_only eq_refl Hnot).
Defined.



Lemma load_tickers_round_trip_witness :
  load_tickers (Some Cases.ticker_lines) = Returns [text "RAMP"; text "CROSS"]
  ∧ load_tickers (Some ((λ t, t ++ [newline]) <$> [text "RAMP"; text "CROSS"]))
    = Returns [text "RAMP"; text "CROSS"].
Proof.
  split.
  - vm_compute. reflexivity.
  - apply (load_tickers_round_trip (Some Cases.ticker_lines)
             [text "RAMP"; text "CROSS"]).
    vm_compute. reflexivity.
Defined.

Lemma sent_message_carries_the_existing_attachments_witness :
  (send_email Cases.env (λ _, None) ScanSubject (TopTen [])
              [text "output/a.csv"; text "output/b.csv"] Cases.start).2
  = Returns true
  ∧ ∃ s,
      sessions (send_email Cases.env (λ _, None) ScanSubject (TopTen [])
                           [text "output/a.csv"; text "output/b.csv"]
                           Cases.start).1
      = sessions Cases.start ++ [s]
      ∧ Subject (payload s) = ScanSubject
      ∧ Body (payload s) = TopTen []
      ∧ Attachments (payload s)
        = omap (λ p, c ← disk Cases.start p; Some (basename p, c))
               [text "output/a.csv"; text "output/b.csv"]
      ∧ To (payload s) = join comma_space (envelope_to s)
      ∧ From (payload s) = envelope_from s
      ∧ printed (send_email Cases.env (λ _, None) ScanSubject (TopTen [])
                            [text "output/a.csv"; text "output/b.csv"]
                            Cases.start).1
        = printed Cases.start
          ++ (WarnMissing <$> filter (λ p, disk Cases.start p = None)
                                     [text "output/a.csv"; text "output/b.csv"])
          ++ [MailSent (envelope_to s)].
Proof.
  split.
  - vm_compute. reflexivity.
  - apply (sent_message_carries_the_existing_attachments Cases.env (λ _, None)
             ScanSubject (TopTen []) [text "output/a.csv"; text "output/b.csv"]
             Cases.start).
    vm_compute. reflexivity.
Defined.

Lemma main_success_exports_and_mails_the_reports_witness :
  pipeline Cases.world (initial Cases.world) = (Cases.final, Returns true)
  ∧ (main Cases.world = (Cases.final, Returns ())
     ∧ ∃ tickers data df,
         load_tickers (tickers_file Cases.world) = Returns tickers
         ∧ fetch_prices (download Cases.world tickers) = Returns data
         ∧ (compute_signals data []).2 = Ok df
         ∧ disk Cases.final (csv_path (stamp Cases.world)) = Some (CsvOf df)
         ∧ disk Cases.final (html_path (stamp Cases.world)) = Some (HtmlOf df)
         ∧ disk Cases.final err_path = files_before Cases.world err_path
         ∧ (true = false → sessions Cases.final = [])
         ∧ (true = true →
            ∃ s, sessions Cases.final = [s]
               ∧ Subject (payload s) = ScanSubject
               ∧ Body (payload s) = TopTen (take 10 df)
               ∧ Attachments (payload s)
                 = [(basename (csv_path (stamp Cases.world)), CsvOf df);
                    (basename (html_path (stamp Cases.world)), HtmlOf df)]
               ∧ (47%N ∉ stamp Cases.world →
                  basename (csv_path (stamp Cases.world))
                  = text "scan_" ++ stamp Cases.world ++ text ".csv"
                  ∧ basename (html_path (stamp Cases.world))
                    = text "scan_" ++ stamp Cases.world ++ text ".html"))).
Proof.
  assert ((pipeline Cases.world (initial Cases.world)).2 = Returns true) as Hsent
    by (vm_compute; reflexivity).
  assert (pipeline Cases.world (initial Cases.world) = (Cases.final, Returns true))
    as Hpipe.
  { rewrite <- Hsent. apply surjective_pairing. }
  split; [exact Hpipe|].
  exact (main_success_exports_and_mails_the_reports Cases.world Cases.final true
           Hpipe).
Defined.


Lemma main_failure_writes_the_report_and_notifies_witness :
  pipeline Cases.world_without_file (initial Cases.world_without_file)
  = (initial Cases.world_without_file, Raises FileNotFoundError)
  ∧ (disk (main Cases.world_without_file).1 err_path
     = Some (ErrorReport FileNotFoundError)
     ∧ TaskFailed FileNotFoundError ∈ printed (main Cases.world_without_file).1
     ∧ (sessions (main Cases.world_without_file).1 = []
        ∨ ∃ s, sessions (main Cases.world_without_file).1 = [s]
             ∧ (main Cases.world_without_file).2 = Returns ()
             ∧ Subject (payload s) = FailureSubject
             ∧ Body (payload s) = Traceback FileNotFoundError
             ∧ Attachments (payload s)
               = [(text "error.txt", ErrorReport FileNotFoundError)])).
Proof.
  assert (pipeline Cases.world_without_file (initial Cases.world_without_file)
          = (initial Cases.world_without_file, Raises FileNotFoundError)) as Hpipe
    by reflexivity.
  split; [exact Hpipe|].
  exact (main_failure_writes_the_report_and_notifies Cases.world_without_file
           (initial Cases.world_without_file) FileNotFoundError Hpipe).
Defined.
